(** * Precedence climbing calculator: lexer, parser/evaluator, error rendering

    Shallow embedding of [src/main.cpp].  The input line is a list of
    characters; a [std::string_view] into it is an offset and a length; the
    lexer's cursor is threaded explicitly; [double] is the kernel's binary64
    float.  The two libm/libc functions the program calls whose results are
    not fixed by IEEE 754 ([pow], and [strtod] on text that continues past a
    digit run) are parameters of the development. *)

From Corelib Require Import PrimFloat SpecFloat FloatOps.
From Stdlib Require Import ZArith Ascii String List Bool Arith Lia.
Import ListNotations.

Local Open Scope nat_scope.

(** ** Characters *)

Definition NUL : ascii := "000"%char.
Definition TAB : ascii := "009"%char.
Definition LF : ascii := "010"%char.
Definition CR : ascii := "013"%char.
Definition SPACE : ascii := " "%char.

(** [isdigit] of <cctype> in the "C" locale: true on ['0'] to ['9'] only
    (and so false on the bytes above 127). *)
Definition isdigit (c : ascii) : bool :=
  (48 <=? nat_of_ascii c) && (nat_of_ascii c <=? 57).

(** The four cases of the switch in [Lexer::skip_whitespace]. *)
Definition is_blank (c : ascii) : bool :=
  Ascii.eqb c LF || Ascii.eqb c TAB || Ascii.eqb c CR || Ascii.eqb c SPACE.

(** ** Tokens and the operator table *)

Inductive Associativity := LEFT | RIGHT.

Record OperatorPrecedence := { prec : Z; assoc : Associativity }.

Inductive TokenType :=
| ADD | SUBTRACT | MULTIPLY | DIVIDE | POWER
| NUMBER | LEFT_PAREN | RIGHT_PAREN | ILLEGAL_CHARACTER | END_OF_FILE.

(** The enumerators' integer values. *)
Definition enum_value (t : TokenType) : Z :=
  match t with
  | ADD => 0 | SUBTRACT => 1 | MULTIPLY => 2 | DIVIDE => 3 | POWER => 4
  | NUMBER => 5 | LEFT_PAREN => 6 | RIGHT_PAREN => 7
  | ILLEGAL_CHARACTER => 8 | END_OF_FILE => 9
  end%Z.

Definition OperatorMap : list OperatorPrecedence :=
  [ {| prec := 1; assoc := LEFT |};   (* ADD *)
    {| prec := 1; assoc := LEFT |};   (* SUBTRACT *)
    {| prec := 2; assoc := LEFT |};   (* MULTIPLY *)
    {| prec := 2; assoc := LEFT |};   (* DIVIDE *)
    {| prec := 3; assoc := RIGHT |} ] (* POWER *).

(** [OperatorMap[t]]; the code indexes only after the range check. *)
Definition OperatorMap_at (t : TokenType) : OperatorPrecedence :=
  nth (Z.to_nat (enum_value t)) OperatorMap {| prec := 0; assoc := LEFT |}.

(** A token: the view [string] as (offset into the source, length), and the
    type. *)
Record Token := { tok_start : nat; tok_len : nat; tok_type : TokenType }.

Definition TokenType_eqb (a b : TokenType) : bool :=
  Z.eqb (enum_value a) (enum_value b).

(** ** Lexer *)

Module Lexer.
Section WithSource.

Variable source : list ascii.

(** [end = source.length()], set by the constructor and never changed. *)
Definition lexer_end : nat := length source.

Definition is_at_end (current_position : nat) : bool :=
  lexer_end <=? current_position.

(** [source[i]] for [i <= length]: the byte at [length] is the string's
    terminating NUL. *)
Definition source_at (i : nat) : ascii := nth i source NUL.

Definition peek (current_position : nat) : ascii :=
  if is_at_end current_position then NUL else source_at current_position.

Definition peek_next (current_position : nat) : ascii :=
  if is_at_end current_position then NUL
  else source_at (current_position + 1).

(** [read_next] as its effect on the cursor (no caller uses the character
    it returns). *)
Definition read_next (current_position : nat) : nat :=
  if is_at_end current_position then current_position
  else S current_position.

Definition make_simple_token (current_position : nat) (type : TokenType)
  : Token :=
  {| tok_start := current_position; tok_len := 1; tok_type := type |}.

(** The [for (;;)] of [skip_whitespace]; [fuel] bounds the iterations. *)
Fixpoint skip_whitespace_loop (fuel current_position : nat) : nat :=
  match fuel with
  | O => current_position
  | S fuel' =>
      if is_blank (peek current_position)
      then skip_whitespace_loop fuel' (read_next current_position)
      else current_position
  end.

Definition skip_whitespace (current_position : nat) : nat :=
  skip_whitespace_loop (S (lexer_end - current_position)) current_position.

(** The [for (;;)] of [number]. *)
Fixpoint number_loop (fuel current_position : nat) : nat :=
  match fuel with
  | O => current_position
  | S fuel' =>
      if isdigit (peek current_position)
      then number_loop fuel' (read_next current_position)
      else current_position
  end.

Definition number (current_position : nat) : Token * nat :=
  let start := current_position in
  let p1 := read_next current_position in
  let p2 := number_loop (S (lexer_end - p1)) p1 in
  ({| tok_start := start; tok_len := p2 - start; tok_type := NUMBER |}, p2).

(** [Lexer::next_token]: the token and the cursor after it. *)
Definition next_token (current_position : nat) : Token * nat :=
  let p := skip_whitespace current_position in
  let c := peek p in
  if isdigit c then number p
  else if Ascii.eqb c "+" then (make_simple_token p ADD, read_next p)
  else if Ascii.eqb c "-" then (make_simple_token p SUBTRACT, read_next p)
  else if Ascii.eqb c "*" then
    if Ascii.eqb (peek_next p) "*"
    then ({| tok_start := p; tok_len := 2; tok_type := POWER |},
          read_next (read_next p))
    else (make_simple_token p MULTIPLY, read_next p)
  else if Ascii.eqb c "/" then (make_simple_token p DIVIDE, read_next p)
  else if Ascii.eqb c "(" then (make_simple_token p LEFT_PAREN, read_next p)
  else if Ascii.eqb c ")" then (make_simple_token p RIGHT_PAREN, read_next p)
  else if Ascii.eqb c NUL
       then (make_simple_token p END_OF_FILE, read_next p)
       else (make_simple_token p ILLEGAL_CHARACTER, read_next p).

End WithSource.
End Lexer.


(** ** Numbers: the part of [strtod] and of [double] arithmetic the parser uses *)

(** The longest prefix of decimal digits. *)
Fixpoint digit_run (s : list ascii) : list ascii :=
  match s with
  | c :: s' => if isdigit c then c :: digit_run s' else []
  | [] => []
  end.

Definition digit_value (c : ascii) : Z := Z.of_nat (nat_of_ascii c) - 48.

Definition decimal_value (ds : list ascii) : Z :=
  fold_left (fun acc c => 10 * acc + digit_value c)%Z ds 0%Z.

(** The binary64 value nearest to an integer (ties to even, overflow to
    infinity): decimal-to-double conversion of a digit run. *)
Definition double_of_Z (z : Z) : float :=
  SF2Prim (binary_normalize FloatOps.prec FloatOps.emax z 0 false).

(** The characters with which [strtod] may read on after a digit run: a
    fraction, an exponent, or the [x] of a hexadecimal literal. *)
Definition continues_number (c : ascii) : bool :=
  Ascii.eqb c "." || Ascii.eqb c "e" || Ascii.eqb c "E"
  || Ascii.eqb c "x" || Ascii.eqb c "X".

(** ** Parser / evaluator *)

Inductive ErrorKind :=
| UnknownOperator | UnmatchedParen | UnexpectedEndOfExpression | UnexpectedToken.

(** The string literal passed to [report_error] for each kind. *)
Definition error_message (k : ErrorKind) : list ascii :=
  match k with
  | UnknownOperator => list_ascii_of_string "Unknown operator:" ++ [LF]
  | UnmatchedParen => list_ascii_of_string "Unmatched '(':" ++ [LF]
  | UnexpectedEndOfExpression =>
      list_ascii_of_string "Unexpected end of expression: " ++ [LF]
  | UnexpectedToken => list_ascii_of_string "Unexpected character: " ++ [LF]
  end.

(** The parser's mutable members: the lexer's cursor and the lookahead. *)
Record Parser := { current_position : nat; token : Token }.

(** What a call of a [compute_*] member does: return a value in a new state,
    call [report_error] (which never returns) in some state, or exhaust the
    recursion budget of the model. *)
Inductive Res :=
| Value (v : float) (st : Parser)
| Error (k : ErrorKind) (st : Parser)
| OutOfFuel.

(** [size_t] arithmetic (64 bits). *)
Definition size_t (z : Z) : Z := (z mod 2 ^ 64)%Z.

Module Parser.
Section WithSource.

Variable source : list ascii.
(** [pow] of <cmath>. *)
Variable pow : float -> float -> float.
(** [strtod] on text in which a digit run is followed by a character of
    [continues_number]. *)
Variable strtod_continued : list ascii -> float.

(** [std::strtod(p, nullptr)] for [p] pointing at a digit, given the text
    from [p] to the terminator. *)
Definition strtod (text : list ascii) : float :=
  let run := digit_run text in
  if continues_number (nth (length run) text NUL)
  then strtod_continued text
  else double_of_Z (decimal_value run).

Definition next_token (st : Parser) : Parser :=
  let (t, p) := Lexer.next_token source (current_position st) in
  {| current_position := p; token := t |}.

Definition compute_op (t : Token) (lhs rhs : float) (st : Parser) : Res :=
  match tok_type t with
  | ADD => Value (lhs + rhs)%float st
  | SUBTRACT => Value (lhs - rhs)%float st
  | MULTIPLY => Value (lhs * rhs)%float st
  | DIVIDE => Value (lhs / rhs)%float st
  | POWER => Value (pow lhs rhs) st
  | _ => Error UnknownOperator st
  end.

(** [compute_atom], with the recursive call of [compute_expr] passed in. *)
Definition compute_atom (compute_expr : Z -> Parser -> Res) (st : Parser)
  : Res :=
  let st := next_token st in
  if TokenType_eqb (tok_type (token st)) LEFT_PAREN then
    match compute_expr 1%Z st with
    | Value val st =>
        if negb (TokenType_eqb (tok_type (token st)) RIGHT_PAREN)
        then Error UnmatchedParen st
        else Value val (next_token st)
    | r => r
    end
  else if TokenType_eqb (tok_type (token st)) END_OF_FILE then
    Error UnexpectedEndOfExpression st
  else if negb (TokenType_eqb (tok_type (token st)) NUMBER) then
    Error UnexpectedToken st
  else
    let val := strtod (skipn (tok_start (token st)) source) in
    Value val (next_token st).

(** The [while (true)] of [compute_expr]. *)
Fixpoint while_loop (fuel : nat) (compute_expr : Z -> Parser -> Res)
    (minimum_precedence : Z) (atom_lhs : float) (st : Parser) : Res :=
  match fuel with
  | O => OutOfFuel
  | S fuel' =>
      let cur := token st in
      if ((enum_value (tok_type cur) >? enum_value POWER)
          || (enum_value (tok_type cur) <? enum_value ADD)
          || (prec (OperatorMap_at (tok_type cur)) <? minimum_precedence))%Z
      then
        if TokenType_eqb (tok_type cur) ILLEGAL_CHARACTER
        then Error UnknownOperator st
        else Value atom_lhs st
      else
        let op_prec := OperatorMap_at (tok_type cur) in
        let next_min_prec :=
          match assoc op_prec with
          | LEFT => (prec op_prec + 1)%Z
          | RIGHT => prec op_prec
          end in
        match compute_expr next_min_prec st with
        | Value atom_rhs st =>
            match compute_op cur atom_lhs atom_rhs st with
            | Value atom_lhs st =>
                while_loop fuel' compute_expr minimum_precedence atom_lhs st
            | r => r
            end
        | r => r
        end
  end.

Fixpoint compute_expr (fuel : nat) (minimum_precedence : Z) (st : Parser)
  : Res :=
  match fuel with
  | O => OutOfFuel
  | S fuel' =>
      match compute_atom (compute_expr fuel') st with
      | Value atom_lhs st =>
          while_loop fuel' (compute_expr fuel') minimum_precedence
            atom_lhs st
      | r => r
      end
  end.

(** The parser as constructed by [Parser(Lexer l)]: cursor at 0; the
    lookahead is not initialised, and is overwritten before it is read. *)
Definition initial : Parser :=
  {| current_position := 0;
     token := {| tok_start := 0; tok_len := 0; tok_type := END_OF_FILE |} |}.

(** [parse]; the budget exceeds the number of characters left by one. *)
Definition parse : Res :=
  compute_expr (S (length source)) 1%Z initial.

(** *** Error location *)

(** [*p] for a pointer [p = source_start + i]: defined on the characters
    of the string and on its terminator, nowhere else. *)
Definition deref (i : Z) : option ascii :=
  if ((0 <=? i) && (i <=? Z.of_nat (length source)))%Z
  then Some (nth (Z.to_nat i) source NUL)
  else None.

(** The backward scan to the start of the line. *)
Fixpoint start_of_line_loop (fuel : nat) (start_of_line : Z) : option Z :=
  match fuel with
  | O => None
  | S fuel' =>
      match deref start_of_line with
      | None => None
      | Some c =>
          if negb (Ascii.eqb c LF) && (0 <? start_of_line)%Z
          then start_of_line_loop fuel' (start_of_line - 1)%Z
          else Some start_of_line
      end
  end.

(** The forward scan to the end of the line. *)
Fixpoint end_of_line_loop (fuel : nat) (end_of_line : Z) : option Z :=
  match fuel with
  | O => None
  | S fuel' =>
      match deref end_of_line with
      | None => None
      | Some c =>
          if negb (Ascii.eqb c LF) && negb (Ascii.eqb c NUL)
          then end_of_line_loop fuel' (end_of_line + 1)%Z
          else Some end_of_line
      end
  end.

(** [while (source_line_len--) error_str += source_start[offset++]]. *)
Fixpoint copy_loop (source_line_len : nat) (offset : Z)
  : option (list ascii) :=
  match source_line_len with
  | O => Some []
  | S n =>
      match deref offset with
      | None => None
      | Some c =>
          match copy_loop n (offset + 1)%Z with
          | None => None
          | Some error_str => Some (c :: error_str)
          end
      end
  end.

(** [show_error_location]: [None] when a character is read outside the
    string and its terminator. *)
Definition show_error_location (st : Parser) : option (list ascii) :=
  let token_data := Z.of_nat (tok_start (token st)) in
  match start_of_line_loop (S (tok_start (token st))) token_data with
  | None => None
  | Some start_of_line =>
  match deref start_of_line with
  | None => None
  | Some c =>
  let start_of_line :=
    if Ascii.eqb c NUL then (start_of_line + 1)%Z else start_of_line in
  match end_of_line_loop (S (S (length source))) start_of_line with
  | None => None
  | Some end_of_line =>
  match deref (end_of_line - 1)%Z with
  | None => None
  | Some c' =>
  let end_of_line :=
    if Ascii.eqb c' CR then (end_of_line - 1)%Z else end_of_line in
  let source_line_len := size_t (end_of_line - start_of_line) in
  let space_before_caret := size_t (token_data - start_of_line) in
  match copy_loop (Z.to_nat source_line_len) 0%Z with
  | None => None
  | Some error_str =>
      Some (error_str ++ [LF]
              ++ repeat SPACE (Z.to_nat space_before_caret)
              ++ ["^"%char])
  end end end end end.

(** [report_error]: the text of the exception thrown, when defined. *)
Definition report_error (err : list ascii) (st : Parser)
  : option (list ascii) :=
  option_map (app err) (show_error_location st).

End WithSource.
End Parser.

(** ** The shell's loop body *)

Inductive Outcome :=
| Printed (value : float)
| Caught (what : list ascii)
| Undefined
| Diverged.

Definition run_line (pow : float -> float -> float)
    (strtod_continued : list ascii -> float) (s : list ascii) : Outcome :=
  match Parser.parse s pow strtod_continued with
  | Value value _ => Printed value
  | Error k st =>
      match Parser.report_error s (error_message k) st with
      | Some what => Caught what
      | None => Undefined
      end
  | OutOfFuel => Diverged
  end.


(** ** Grammar of valid expressions *)

(** The pure scanner on the text left of the cursor: what [Lexer::next_token]
    computes, as a function of the suffix [s] that starts at offset [p]. *)
Definition scan_token (c : ascii) (s' : list ascii) (p : nat) : Token * nat :=
  if isdigit c then
    let n := S (length (digit_run s')) in
    ({| tok_start := p; tok_len := n; tok_type := NUMBER |}, p + n)
  else if Ascii.eqb c "+" then (Lexer.make_simple_token p ADD, S p)
  else if Ascii.eqb c "-" then (Lexer.make_simple_token p SUBTRACT, S p)
  else if Ascii.eqb c "*" then
    if Ascii.eqb (hd NUL s') "*"
    then ({| tok_start := p; tok_len := 2; tok_type := POWER |}, S (S p))
    else (Lexer.make_simple_token p MULTIPLY, S p)
  else if Ascii.eqb c "/" then (Lexer.make_simple_token p DIVIDE, S p)
  else if Ascii.eqb c "(" then (Lexer.make_simple_token p LEFT_PAREN, S p)
  else if Ascii.eqb c ")" then (Lexer.make_simple_token p RIGHT_PAREN, S p)
  else if Ascii.eqb c NUL then (Lexer.make_simple_token p END_OF_FILE, S p)
  else (Lexer.make_simple_token p ILLEGAL_CHARACTER, S p).

Fixpoint scan (s : list ascii) (p : nat) : Token * nat :=
  match s with
  | [] => (Lexer.make_simple_token p END_OF_FILE, p)
  | c :: s' => if is_blank c then scan s' (S p) else scan_token c s' p
  end.

(** A token type in the range [ADD .. POWER] of the operator table. *)
Definition is_binary (t : TokenType) : bool :=
  ((enum_value ADD <=? enum_value t) && (enum_value t <=? enum_value POWER))%Z.

Definition operator_text (t : TokenType) : list ascii :=
  match t with
  | ADD => ["+"%char]
  | SUBTRACT => ["-"%char]
  | MULTIPLY => ["*"%char]
  | DIVIDE => ["/"%char]
  | POWER => ["*"%char; "*"%char]
  | _ => []
  end.

(** Expressions: a digit run, or a binary operator applied to two
    expressions. *)
Inductive expr :=
| Num (digits : list ascii)
| Bin (op : TokenType) (lhs rhs : expr).

Definition binary_value (pow : float -> float -> float) (op : TokenType)
    (lhs rhs : float) : float :=
  match op with
  | ADD => lhs + rhs
  | SUBTRACT => lhs - rhs
  | MULTIPLY => lhs * rhs
  | DIVIDE => lhs / rhs
  | _ => pow lhs rhs
  end%float.

(** The value of an expression: each operator applied to the values of its
    two operands. *)
Fixpoint eval (pow : float -> float -> float) (e : expr) : float :=
  match e with
  | Num digits => double_of_Z (decimal_value digits)
  | Bin op lhs rhs => binary_value pow op (eval pow lhs) (eval pow rhs)
  end.

(** The level of the operands of an operator in the grammar the table
    dictates: the operand on the side the operator associates to stays at the
    operator's precedence, the other one is a level higher. *)
Definition lhs_level (t : TokenType) : Z :=
  match assoc (OperatorMap_at t) with
  | LEFT => prec (OperatorMap_at t)
  | RIGHT => prec (OperatorMap_at t) + 1
  end%Z.

Definition rhs_level (t : TokenType) : Z :=
  match assoc (OperatorMap_at t) with
  | LEFT => prec (OperatorMap_at t) + 1
  | RIGHT => prec (OperatorMap_at t)
  end%Z.

(** The level of atoms: above every precedence of the table. *)
Definition atom_level : Z := 4.

Definition blank (ws : list ascii) : Prop := forallb is_blank ws = true.

(** [phrase k s e]: the text [s] is a valid expression of level [k] (all its
    operators outside parentheses have precedence at least [k]) and [e] is
    the way it groups.  Blanks may precede every token. *)
Inductive phrase : Z -> list ascii -> expr -> Prop :=
| phrase_number ws digits :
    blank ws -> digits <> [] -> forallb isdigit digits = true ->
    phrase atom_level (ws ++ digits) (Num digits)
| phrase_paren ws s ws' e :
    blank ws -> blank ws' -> phrase 1 s e ->
    phrase atom_level (ws ++ "("%char :: s ++ ws' ++ [")"%char]) e
| phrase_binary op l r el er ws :
    is_binary op = true ->
    phrase (lhs_level op) l el -> blank ws -> phrase (rhs_level op) r er ->
    phrase (prec (OperatorMap_at op)) (l ++ ws ++ operator_text op ++ r)
      (Bin op el er)
| phrase_weaken k s e :
    phrase (k + 1) s e -> phrase k s e.

(** The type of the first token of a text. *)
Definition first_token_type (s : list ascii) : TokenType :=
  tok_type (fst (scan s 0)).

(** Text that may follow a phrase of level [k] without changing how the
    phrase is read: it does not go on with a digit, and if it starts with a
    binary operator, that operator binds less than level [k], or as much and
    to the left. *)
Definition follows (k : Z) (rest : list ascii) : Prop :=
  isdigit (hd NUL rest) = false /\
  (is_binary (first_token_type rest) = true ->
   (prec (OperatorMap_at (first_token_type rest)) < k
    \/ (prec (OperatorMap_at (first_token_type rest)) = k
        /\ assoc (OperatorMap_at (first_token_type rest)) = LEFT))%Z).

(** Leftover text after a complete expression that [parse] leaves unread:
    its first token is a number, a parenthesis or the end of the input. *)
Definition leftover (rest : list ascii) : bool :=
  negb (isdigit (hd NUL rest))
  && match first_token_type rest with
     | NUMBER | LEFT_PAREN | RIGHT_PAREN | END_OF_FILE => true
     | _ => false
     end.

(** The characters left of the cursor. *)
Definition remaining (source : list ascii) (st : Parser) : nat :=
  length source - current_position st.

(** The parser's state once it has read the token that starts at or after
    offset [q]. *)
Definition state_at (source : list ascii) (q : nat) : Parser :=
  Parser.next_token source
    {| current_position := q; token := token Parser.initial |}.

(** [compute_expr] and its loop with the budget their state needs. *)
Definition run_expr (source : list ascii) (pow : float -> float -> float)
    (strtod_continued : list ascii -> float) (minimum_precedence : Z)
    (st : Parser) : Res :=
  Parser.compute_expr source pow strtod_continued
    (S (remaining source st)) minimum_precedence st.

Definition run_loop (source : list ascii) (pow : float -> float -> float)
    (strtod_continued : list ascii -> float) (minimum_precedence : Z)
    (atom_lhs : float) (st : Parser) : Res :=
  Parser.while_loop pow (S (remaining source st))
    (run_expr source pow strtod_continued) minimum_precedence atom_lhs st.

(** The value returned, if any, and the kind of error raised, if any. *)
Definition result_value (r : Res) : option float :=
  match r with Value v _ => Some v | _ => None end.

Definition raised (r : Res) : option ErrorKind :=
  match r with Error k _ => Some k | _ => None end.

(** An input line written as a string literal. *)
Definition text (s : string) : list ascii := list_ascii_of_string s.

(** The source line as the error text shows it: without a carriage return
    at its end. *)
Definition rendered_line (source : list ascii) : list ascii :=
  if Ascii.eqb (last source NUL) CR then removelast source else source.

(** A line of text as [std::getline] delivers it to the shell, without NUL
    characters: no line feed and no NUL in it. *)
Definition plain_line (source : list ascii) : bool :=
  forallb (fun c => negb (Ascii.eqb c LF) && negb (Ascii.eqb c NUL)) source.

(** *** Instances of the two parameters for the examples *)

Fixpoint power_nat (x : float) (n : nat) : float :=
  match n with
  | O => 1
  | S n' => x * power_nat x n'
  end%float.

(** The integer a float is, when it is a non-negative integer. *)
Definition integer_of_float (y : float) : option Z :=
  match Prim2SF y with
  | S754_zero _ => Some 0
  | S754_finite false m e =>
      if 0 <=? e then Some (Z.pos m * 2 ^ e)
      else if Z.pos m mod 2 ^ (- e) =? 0 then Some (Z.pos m / 2 ^ (- e))
      else None
  | _ => None
  end%Z.

(** A power function that is exact where repeated multiplication is: a
    stand-in for [pow] in the examples with small integer operands. *)
Definition sample_pow (x y : float) : float :=
  match integer_of_float y with
  | Some n => power_nat x (Z.to_nat n)
  | None => nan
  end.

(** A stand-in for [strtod] on continued numbers: the integer part. *)
Definition sample_strtod_continued (s : list ascii) : float :=
  double_of_Z (decimal_value (digit_run s)).

(** The layout of the error text with the message last: the source line, a
    line of [n] spaces and a caret, then the message. *)
Definition layout_message_last (line : list ascii) (n : nat)
    (message : list ascii) : list ascii :=
  line ++ [LF] ++ repeat SPACE n ++ ["^"%char] ++ message.

(** A function standing for the recursive call of [compute_expr] behaves
    well on the states with at most [bound] characters left: it finishes, and
    a value comes with strictly less text left. *)
Definition well_behaved (source : list ascii) (f : Z -> Parser -> Res)
    (bound : nat) : Prop :=
  forall m st, remaining source st <= bound ->
    f m st <> OutOfFuel /\
    (forall v st', f m st = Value v st' ->
                   remaining source st' < remaining source st).

(** The cursor and the start of the lookahead token lie within the line or
    on its terminator. *)
Definition in_bounds (source : list ascii) (st : Parser) : Prop :=
  current_position st <= length source /\
  tok_start (token st) <= length source.

Definition outcome_in_bounds (source : list ascii) (r : Res) : Prop :=
  match r with
  | Value _ st | Error _ st => in_bounds source st
  | OutOfFuel => True
  end.

(** *** Vocabulary of the further properties *)

(** The token types at which each kind of error can be raised. *)
Definition error_token_ok (k : ErrorKind) (t : TokenType) : bool :=
  match k, t with
  | UnknownOperator, ILLEGAL_CHARACTER => true
  | UnexpectedEndOfExpression, END_OF_FILE => true
  | UnmatchedParen, (NUMBER | LEFT_PAREN | END_OF_FILE) => true
  | UnexpectedToken, (NUMBER | LEFT_PAREN | END_OF_FILE) => false
  | UnexpectedToken, _ => true
  | _, _ => false
  end.

(** A lookahead at which the loop of [compute_expr] leaves with a value for
    the minimum precedence [m]. *)
Definition stops_at (m : Z) (t : TokenType) : bool :=
  negb (TokenType_eqb t ILLEGAL_CHARACTER)
  && (negb (is_binary t) || (prec (OperatorMap_at t) <? m)%Z).

Definition lookahead_ok (m : Z) (r : Res) : Prop :=
  match r with
  | Value _ st => stops_at m (tok_type (token st)) = true
  | Error k st => error_token_ok k (tok_type (token st)) = true
  | OutOfFuel => True
  end.

(** The characters a token's view spans. *)
Definition token_text (source : list ascii) (t : Token) : list ascii :=
  firstn (tok_len t) (skipn (tok_start t) source).

(** The spelling of the operators and parentheses. *)
Definition fixed_text (t : TokenType) : list ascii :=
  match t with
  | LEFT_PAREN => ["("%char]
  | RIGHT_PAREN => [")"%char]
  | _ => operator_text t
  end.

(** The characters that start a token of their own. *)
Definition is_punctuation (c : ascii) : bool :=
  Ascii.eqb c "+" || Ascii.eqb c "-" || Ascii.eqb c "*" || Ascii.eqb c "/"
  || Ascii.eqb c "(" || Ascii.eqb c ")".

(** What the lexer guarantees of a token [t] read with the cursor moving to
    [q], by its type; [r] is the text at the start of the token. *)
Definition token_shape (t : Token) (q : nat) (r : list ascii) : Prop :=
  match tok_type t with
  | END_OF_FILE =>
      hd NUL r = NUL /\ tok_len t = 1
      /\ q = tok_start t + Nat.min 1 (length r)
  | NUMBER =>
      q = tok_start t + tok_len t
      /\ firstn (tok_len t) r = digit_run r
      /\ tok_len t = length (digit_run r) /\ 0 < tok_len t
  | ILLEGAL_CHARACTER =>
      q = tok_start t + 1 /\ tok_len t = 1
      /\ firstn 1 r = [hd NUL r] /\ r <> []
      /\ isdigit (hd NUL r) = false /\ is_blank (hd NUL r) = false
      /\ is_punctuation (hd NUL r) = false /\ hd NUL r <> NUL
  | ty =>
      q = tok_start t + tok_len t
      /\ firstn (tok_len t) r = fixed_text ty
      /\ tok_len t = length (fixed_text ty)
      /\ (ty = MULTIPLY -> hd NUL (skipn 1 r) <> "*"%char)
  end.

(** The error where an atom is required, by the type of the token there. *)
Definition atom_error (t : TokenType) : ErrorKind :=
  match t with
  | END_OF_FILE => UnexpectedEndOfExpression
  | _ => UnexpectedToken
  end.

(** Positions moved right by [a] characters: in a token, in a state of the
    parser, in a result. *)
Definition shift_token (a : nat) (t : Token) : Token :=
  {| tok_start := a + tok_start t; tok_len := tok_len t;
     tok_type := tok_type t |}.

Definition shift_state (a : nat) (st : Parser) : Parser :=
  {| current_position := a + current_position st;
     token := shift_token a (token st) |}.

Definition shift_result (a : nat) (r : Res) : Res :=
  match r with
  | Value v st => Value v (shift_state a st)
  | Error k st => Error k (shift_state a st)
  | OutOfFuel => OutOfFuel
  end.

(** Two states of the parser, the first on the line [source ++ ws], the
    second on [source]: the same state within [source], or both at an
    end-of-input token with the cursor at the end of their line. *)
Definition same_or_at_end (source ws : list ascii) (st1 st2 : Parser)
  : Prop :=
  (st1 = st2 /\ current_position st2 <= length source
   /\ tok_start (token st2) <= length source)
  \/ (tok_type (token st1) = END_OF_FILE
      /\ tok_type (token st2) = END_OF_FILE
      /\ current_position st1 = length source + length ws
      /\ current_position st2 = length source).

Definition same_outcome (source ws : list ascii) (r1 r2 : Res) : Prop :=
  match r1, r2 with
  | Value v1 st1, Value v2 st2 =>
      v1 = v2 /\ same_or_at_end source ws st1 st2
  | Error k1 st1, Error k2 st2 =>
      k1 = k2 /\ same_or_at_end source ws st1 st2
  | OutOfFuel, OutOfFuel => True
  | _, _ => False
  end.

(** Text that may follow the text [s] of a phrase of level [k] without
    changing how the phrase is read: as [follows], except that it may go on
    with a digit when [s] does not end with one. *)
Definition follows_text (k : Z) (s rest : list ascii) : Prop :=
  (isdigit (last s NUL) = true -> isdigit (hd NUL rest) = false) /\
  (is_binary (first_token_type rest) = true ->
   (prec (OperatorMap_at (first_token_type rest)) < k
    \/ (prec (OperatorMap_at (first_token_type rest)) = k
        /\ assoc (OperatorMap_at (first_token_type rest)) = LEFT))%Z).

(** Leftover text after the complete expression [s] that [parse] leaves
    unread: its first token is a number, a parenthesis or the end of the
    input, and it does not go on with a digit right after a digit of [s]
    (the two would be one number). *)
Definition leftover_after (s rest : list ascii) : bool :=
  (negb (isdigit (last s NUL)) || negb (isdigit (hd NUL rest)))
  && match first_token_type rest with
     | NUMBER | LEFT_PAREN | RIGHT_PAREN | END_OF_FILE => true
     | _ => false
     end.

(** * Properties *)

(** ** Lists and characters *)

Lemma skipn_cons_inv (A : Type) (l : list A) (p : nat) (c d : A) (s : list A) :
  skipn p l = c :: s ->
  p < length l /\ nth p l d = c /\ skipn (S p) l = s.
Proof.
  revert p. induction l as [|a l IH]; intros p H.
  - destruct p; discriminate.
  - destruct p as [|p]; simpl in H.
    + inversion H; subst. simpl. repeat split. lia.
    + destruct (IH p H) as (H1 & H2 & H3). simpl. repeat split.
      * lia.
      * assumption.
      * exact H3.
Qed.

Lemma skipn_nil_inv (A : Type) (l : list A) (p : nat) :
  skipn p l = [] -> length l <= p.
Proof.
  intros H. pose proof (length_skipn p l) as E. rewrite H in E. simpl in E. lia.
Qed.

Lemma skipn_app_inv (A : Type) (l : list A) (p : nat) (a b : list A) :
  skipn p l = a ++ b -> skipn (p + length a) l = b.
Proof.
  intros H. rewrite Nat.add_comm, <- skipn_skipn, H.
  rewrite skipn_app, Nat.sub_diag, skipn_all. reflexivity.
Qed.

Lemma is_blank_not_digit c : is_blank c = true -> isdigit c = false.
Proof.
  unfold is_blank. intros H.
  repeat (apply orb_true_iff in H; destruct H as [H|H]);
    apply Ascii.eqb_eq in H; subst; reflexivity.
Qed.

(** ** The lexer reads the text at the cursor *)

Section LexerFacts.

Variable source : list ascii.

Abbreviation peek := (Lexer.peek source).
Abbreviation read_next := (Lexer.read_next source).

Lemma peek_suffix p : peek p = hd NUL (skipn p source).
Proof.
  unfold Lexer.peek, Lexer.is_at_end, Lexer.lexer_end, Lexer.source_at.
  destruct (Nat.leb_spec (length source) p) as [H|H].
  - now rewrite skipn_all2.
  - destruct (skipn p source) as [|c s] eqn:E.
    + apply skipn_nil_inv in E. lia.
    + now destruct (skipn_cons_inv _ _ _ _ NUL _ E) as (_ & -> & _).
Qed.

Lemma peek_next_suffix p :
  peek p <> NUL ->
  Lexer.peek_next source p = hd NUL (tl (skipn p source)).
Proof.
  unfold Lexer.peek_next, Lexer.peek, Lexer.is_at_end, Lexer.lexer_end,
    Lexer.source_at.
  destruct (Nat.leb_spec (length source) p) as [H|H]; [congruence|].
  intros _. destruct (skipn p source) as [|c s] eqn:E.
  - apply skipn_nil_inv in E. lia.
  - destruct (skipn_cons_inv _ _ _ _ NUL _ E) as (_ & _ & E'). simpl.
    rewrite Nat.add_1_r.
    destruct s as [|c' s'].
    + apply skipn_nil_inv in E'. now rewrite nth_overflow.
    + now destruct (skipn_cons_inv _ _ _ _ NUL _ E') as (_ & -> & _).
Qed.

Lemma read_next_suffix p c s :
  skipn p source = c :: s -> read_next p = S p /\ skipn (S p) source = s.
Proof.
  intros E. destruct (skipn_cons_inv _ _ _ _ NUL _ E) as (H & _ & E').
  split; [|exact E'].
  unfold Lexer.read_next, Lexer.is_at_end, Lexer.lexer_end.
  destruct (Nat.leb_spec (length source) p); [lia|reflexivity].
Qed.

Lemma read_next_at_end p : skipn p source = [] -> read_next p = p.
Proof.
  intros E. apply skipn_nil_inv in E.
  unfold Lexer.read_next, Lexer.is_at_end, Lexer.lexer_end.
  destruct (Nat.leb_spec (length source) p); [reflexivity|lia].
Qed.

Lemma number_loop_suffix s : forall p fuel,
  skipn p source = s -> length s < fuel ->
  Lexer.number_loop source fuel p = p + length (digit_run s).
Proof.
  induction s as [|c s IH]; intros p [|fuel] E Hf; simpl in *; try lia;
    rewrite peek_suffix, E; simpl.
  - change (isdigit NUL) with false. cbv iota. lia.
  - destruct (isdigit c); [|simpl; lia].
    destruct (read_next_suffix _ _ _ E) as [-> E'].
    rewrite (IH (S p) fuel E'); simpl; lia.
Qed.

Lemma next_token_scan_loop s : forall p fuel,
  skipn p source = s -> length s < fuel ->
  (let q := Lexer.skip_whitespace_loop source fuel p in
   exists s', skipn q source = s' /\ scan s p = scan s' q /\
              is_blank (hd NUL s') = false /\ p <= q).
Proof.
  induction s as [|c s IH]; intros p [|fuel] E Hf; simpl in *; try lia;
    rewrite peek_suffix, E; simpl.
  - change (is_blank NUL) with false. cbv iota.
    exists []. repeat split; auto.
  - destruct (is_blank c) eqn:B.
    + destruct (read_next_suffix _ _ _ E) as [-> E'].
      destruct (IH (S p) fuel E') as (s' & H1 & H2 & H3 & H4); [lia|].
      exists s'. repeat split; auto. lia.
    + exists (c :: s). simpl. rewrite B. repeat split; auto.
Qed.

(** [Lexer::next_token] is the scanner applied to the text at the cursor. *)
Lemma next_token_scan p :
  Lexer.next_token source p = scan (skipn p source) p.
Proof.
  unfold Lexer.next_token, Lexer.skip_whitespace.
  destruct (next_token_scan_loop (skipn p source) p
              (S (Lexer.lexer_end source - p)) eq_refl)
    as (s' & E & -> & B & _).
  { rewrite length_skipn. unfold Lexer.lexer_end. lia. }
  set (q := Lexer.skip_whitespace_loop _ _ _) in *. clearbody q.
  rewrite peek_suffix, E.
  destruct s' as [|c s]; simpl in *.
  - change (isdigit NUL) with false. simpl.
    now rewrite (read_next_at_end _ E).
  - rewrite B. unfold scan_token.
    destruct (read_next_suffix _ _ _ E) as [R E'].
    destruct (isdigit c) eqn:D.
    + unfold Lexer.number. rewrite R.
      rewrite (number_loop_suffix s (S q)); auto.
      * f_equal; [f_equal|]; lia.
      * rewrite <- E', length_skipn. unfold Lexer.lexer_end. lia.
    + rewrite R.
      destruct (Ascii.eqb c "+"); [reflexivity|].
      destruct (Ascii.eqb c "-"); [reflexivity|].
      destruct (Ascii.eqb c "*") eqn:Star.
      * rewrite peek_next_suffix
          by (rewrite peek_suffix, E; cbn [hd]; intro; subst c;
              discriminate).
        rewrite E. cbn [hd tl].
        destruct (Ascii.eqb (hd NUL s) "*") eqn:Star2; [|reflexivity].
        destruct s as [|c' s'']; [discriminate|].
        now destruct (read_next_suffix _ _ _ E') as [-> _].
      * repeat (match goal with
                | |- context [Ascii.eqb ?a ?b] =>
                    destruct (Ascii.eqb a b); try reflexivity
                end).
Qed.

End LexerFacts.

(** ** Bounds of the scanner *)

Lemma scan_token_bounds c s p :
  is_blank c = false ->
  let (t, q) := scan_token c s p in
  tok_start t = p /\ p < q /\ q <= p + S (length s) /\
  (c <> NUL -> tok_type t <> END_OF_FILE).
Proof.
  intros B. unfold scan_token.
  assert (L : length (digit_run s) <= length s).
  { clear. induction s as [|a s IH]; simpl; [lia|].
    destruct (isdigit a); simpl; lia. }
  destruct (isdigit c); [simpl; repeat split; try lia; discriminate|].
  repeat (match goal with
          | |- context [Ascii.eqb c ?b] => destruct (Ascii.eqb_spec c b)
          end; [simpl; repeat split; try lia; try discriminate|]).
  - destruct (Ascii.eqb_spec (hd NUL s) "*");
      simpl; repeat split; try lia; try discriminate.
    destruct s; [discriminate|simpl; lia].
  - congruence.
  - simpl; repeat split; try lia; discriminate.
Qed.

Lemma scan_bounds s : forall p,
  let (t, q) := scan s p in
  p <= tok_start t /\ tok_start t <= q /\ q <= p + length s /\
  (tok_type t <> END_OF_FILE -> tok_start t < q).
Proof.
  induction s as [|c s IH]; intros p; simpl.
  - repeat split; try lia. congruence.
  - destruct (is_blank c) eqn:B.
    + specialize (IH (S p)). destruct (scan s (S p)) as [t q].
      destruct IH as (H1 & H2 & H3 & H4). repeat split; try lia. exact H4.
    + pose proof (scan_token_bounds c s p B) as H.
      destruct (scan_token c s p) as [t q].
      destruct H as (H1 & H2 & H3 & H4). repeat split; lia.
Qed.

(** ** The recursion of the parser is bounded by the text left *)

Section ParserFacts.

Variable source : list ascii.
Variable pow : float -> float -> float.
Variable strtod_continued : list ascii -> float.

Abbreviation left := (remaining source).
Abbreviation advance := (Parser.next_token source).
Abbreviation atom := (Parser.compute_atom source strtod_continued).
Abbreviation expr_at := (Parser.compute_expr source pow strtod_continued).
Abbreviation loop_at := (Parser.while_loop pow).

Lemma advance_scan st :
  advance st =
  {| current_position :=
       snd (scan (skipn (current_position st) source) (current_position st));
     token :=
       fst (scan (skipn (current_position st) source) (current_position st))
  |}.
Proof.
  unfold Parser.next_token. rewrite next_token_scan.
  now destruct (scan _ _).
Qed.

Lemma advance_left st :
  left (advance st) <= left st /\
  (tok_type (token (advance st)) <> END_OF_FILE ->
   left (advance st) < left st) /\
  tok_start (token (advance st)) <= Nat.max (current_position st) (length source).
Proof.
  rewrite advance_scan. unfold remaining. simpl.
  pose proof (scan_bounds (skipn (current_position st) source)
                (current_position st)) as H.
  destruct (scan _ _) as [t q]. simpl.
  rewrite length_skipn in H. destruct H as (H1 & H2 & H3 & H4).
  repeat split; try lia. intros E. specialize (H4 E). lia.
Qed.

Lemma TokenType_eqb_eq a b : TokenType_eqb a b = true <-> a = b.
Proof.
  unfold TokenType_eqb. rewrite Z.eqb_eq. split; [|now intros ->].
  destruct a, b; simpl; intros H; try reflexivity; discriminate.
Qed.

Lemma atom_cong f g st :
  (left (advance st) < left st -> f 1%Z (advance st) = g 1%Z (advance st)) ->
  atom f st = atom g st.
Proof.
  intros H. unfold Parser.compute_atom.
  destruct (TokenType_eqb (tok_type (token (advance st))) LEFT_PAREN) eqn:E;
    [|reflexivity].
  rewrite H; [reflexivity|].
  apply advance_left. apply TokenType_eqb_eq in E. rewrite E. discriminate.
Qed.

Lemma atom_progress f st :
  (left (advance st) < left st ->
   f 1%Z (advance st) <> OutOfFuel /\
   (forall v s, f 1%Z (advance st) = Value v s -> left s <= left (advance st))) ->
  atom f st <> OutOfFuel /\
  (forall v st', atom f st = Value v st' -> left st' < left st).
Proof.
  intros H. unfold Parser.compute_atom.
  destruct (TokenType_eqb (tok_type (token (advance st))) LEFT_PAREN) eqn:E.
  - apply TokenType_eqb_eq in E.
    assert (L : left (advance st) < left st).
    { apply advance_left. rewrite E. discriminate. }
    destruct (H L) as [H1 H2].
    destruct (f 1%Z (advance st)) as [v s|k s|] eqn:F; try congruence.
    + specialize (H2 v s eq_refl).
      destruct (negb _); split; try discriminate.
      intros v' st' [= _ <-]. pose proof (advance_left s). lia.
    + split; discriminate.
  - destruct (TokenType_eqb _ END_OF_FILE) eqn:E2; [split; discriminate|].
    destruct (negb _); split; try discriminate.
    intros v' st' [= _ <-].
    assert (L : left (advance st) < left st).
    { apply advance_left. intros C. apply TokenType_eqb_eq in C. congruence. }
    pose proof (advance_left (advance st)). lia.
Qed.

Lemma compute_op_value t lhs rhs st v st' :
  Parser.compute_op pow t lhs rhs st = Value v st' -> st' = st.
Proof.
  unfold Parser.compute_op. destruct (tok_type t); congruence.
Qed.

Lemma compute_op_fuel t lhs rhs st :
  Parser.compute_op pow t lhs rhs st <> OutOfFuel.
Proof. unfold Parser.compute_op. destruct (tok_type t); discriminate. Qed.

Lemma loop_facts f g bound :
  (forall m s, left s <= bound -> f m s = g m s) ->
  well_behaved source f bound ->
  forall n n' m lhs st,
    left st <= bound -> left st < n -> left st < n' ->
    loop_at n f m lhs st = loop_at n' g m lhs st /\
    loop_at n f m lhs st <> OutOfFuel /\
    (forall v st', loop_at n f m lhs st = Value v st' -> left st' <= left st).
Proof.
  intros Hfg Hf. induction n as [|n IH]; intros n' m lhs st Hb Hn Hn'; [lia|].
  destruct n' as [|n']; [lia|]. simpl.
  destruct (_ || _ || _)%bool.
  - destruct (TokenType_eqb _ _); repeat split; try discriminate.
    intros v st' [= _ <-]. lia.
  - rewrite <- Hfg by assumption.
    destruct (Hf (match assoc (OperatorMap_at (tok_type (token st))) with
                  | LEFT => (prec (OperatorMap_at (tok_type (token st))) + 1)%Z
                  | RIGHT => prec (OperatorMap_at (tok_type (token st)))
                  end) st Hb) as [F1 F2].
    destruct (f _ st) as [rhs s|k s|] eqn:F; try congruence.
    + specialize (F2 rhs s eq_refl).
      pose proof (compute_op_fuel (token st) lhs rhs s) as O1.
      destruct (Parser.compute_op pow (token st) lhs rhs s) as [v s'|k s'|]
        eqn:O; try congruence.
      * apply compute_op_value in O. subst s'.
        destruct (IH n' m v s) as (I1 & I2 & I3); try lia.
        repeat split; auto. intros v' st' E. specialize (I3 v' st' E). lia.
      * repeat split; discriminate.
    + repeat split; discriminate.
Qed.

Lemma compute_expr_S n m st :
  expr_at (S n) m st =
  match atom (expr_at n) st with
  | Value atom_lhs st' => loop_at n (expr_at n) m atom_lhs st'
  | r => r
  end.
Proof. reflexivity. Qed.

(** Any budget above the number of characters left gives the same result,
    which is not [OutOfFuel]; a value comes with less text left. *)
Lemma fuel_enough : forall N st,
  left st < N ->
  forall n m, left st < n ->
    expr_at n m st = expr_at (S (left st)) m st /\
    expr_at n m st <> OutOfFuel /\
    (forall v st', expr_at n m st = Value v st' -> left st' < left st).
Proof.
  induction N as [|N IH]; intros st HN n m Hn; [lia|].
  destruct n as [|n]; [lia|].
  assert (A : forall k, left st <= k ->
            forall m' s, left s < left st ->
              expr_at k m' s = expr_at (S (left s)) m' s /\
              expr_at k m' s <> OutOfFuel /\
              (forall v st', expr_at k m' s = Value v st' -> left st' < left s)).
  { intros k Hk m' s Hs. apply IH; lia. }
  assert (B : forall k, left st <= k ->
            expr_at (S k) m st = expr_at (S (left st)) m st /\
            expr_at (S k) m st <> OutOfFuel /\
            (forall v st', expr_at (S k) m st = Value v st' ->
                           left st' < left st)).
  { intros k Hk. rewrite !compute_expr_S.
    rewrite (atom_cong (expr_at k) (expr_at (left st)) st).
    2:{ intros L. destruct (A k Hk 1%Z _ L) as [-> _].
        now destruct (A (left st) (le_n _) 1%Z _ L) as [-> _]. }
    destruct (atom_progress (expr_at (left st)) st) as [P1 P2].
    { intros L. destruct (A (left st) (le_n _) 1%Z _ L) as (_ & Q1 & Q2).
      split; [assumption|]. intros v s E. specialize (Q2 v s E). lia. }
    destruct (atom (expr_at (left st)) st) as [lhs s|e s|] eqn:At;
      try congruence.
    - specialize (P2 lhs s eq_refl).
      destruct (loop_facts (expr_at k) (expr_at (left st)) (left s))
        with (n := k) (n' := left st) (m := m) (lhs := lhs) (st := s)
        as (L1 & L2 & L3); try lia.
      + intros m' s' Hs'. destruct (A k Hk m' s') as [-> _]; [lia|].
        destruct (A (left st) (le_n _) m' s') as [-> _]; [lia|reflexivity].
      + intros m' s' Hs'. destruct (A k Hk m' s') as (_ & Q1 & Q2); [lia|].
        split; assumption.
      + repeat split; auto. intros v st' E. specialize (L3 v st' E). lia.
    - repeat split; discriminate.
  }
  apply B. lia.
Qed.

Lemma run_expr_fuel n m st :
  left st < n -> expr_at n m st = run_expr source pow strtod_continued m st.
Proof.
  intros H. unfold run_expr.
  now destruct (fuel_enough (S (left st)) st (le_n _) n m H) as [E _].
Qed.

Lemma run_expr_well_behaved bound :
  well_behaved source (run_expr source pow strtod_continued) bound.
Proof.
  intros m st _. unfold run_expr.
  destruct (fuel_enough (S (left st)) st (le_n _) (S (left st)) m (le_n _))
    as (_ & H1 & H2).
  split; assumption.
Qed.

Lemma run_loop_fuel n m lhs st :
  left st < n ->
  loop_at n (run_expr source pow strtod_continued) m lhs st
  = run_loop source pow strtod_continued m lhs st.
Proof.
  intros H. unfold run_loop.
  destruct (loop_facts (run_expr source pow strtod_continued)
              (run_expr source pow strtod_continued) (left st)
              (fun _ _ _ => eq_refl) (run_expr_well_behaved _)
              n (S (left st)) m lhs st) as [E _]; try lia.
  exact E.
Qed.

(** The equations of [compute_expr] and of its loop, free of budgets. *)
Lemma run_expr_eq m st :
  run_expr source pow strtod_continued m st =
  match atom (run_expr source pow strtod_continued) st with
  | Value atom_lhs st' => run_loop source pow strtod_continued m atom_lhs st'
  | r => r
  end.
Proof.
  unfold run_expr at 1. rewrite compute_expr_S.
  rewrite (atom_cong _ (run_expr source pow strtod_continued) st)
    by (intros L; now apply run_expr_fuel).
  destruct (atom_progress (run_expr source pow strtod_continued) st)
    as [_ P].
  { intros L. destruct (run_expr_well_behaved (left (advance st)) 1%Z
                          (advance st) (le_n _)) as [Q1 Q2].
    split; [assumption|]. intros v s E. specialize (Q2 v s E). lia. }
  destruct (atom _ st) as [lhs s|e s|] eqn:At; try reflexivity.
  specialize (P lhs s eq_refl).
  rewrite <- (run_loop_fuel (left st)) by lia.
  destruct (loop_facts (expr_at (left st))
              (run_expr source pow strtod_continued) (left s))
    with (n := left st) (n' := left st) (m := m) (lhs := lhs) (st := s)
    as [E _]; try lia.
  - intros m' s' Hs'. apply run_expr_fuel. lia.
  - intros m' s' Hs'. rewrite run_expr_fuel by lia.
    now apply (run_expr_well_behaved (left s')).
  - exact E.
Qed.

Lemma run_loop_eq m lhs st :
  run_loop source pow strtod_continued m lhs st =
  let cur := token st in
  if ((enum_value (tok_type cur) >? enum_value POWER)
      || (enum_value (tok_type cur) <? enum_value ADD)
      || (prec (OperatorMap_at (tok_type cur)) <? m))%Z
  then
    if TokenType_eqb (tok_type cur) ILLEGAL_CHARACTER
    then Error UnknownOperator st
    else Value lhs st
  else
    match run_expr source pow strtod_continued (rhs_level (tok_type cur)) st
    with
    | Value atom_rhs st' =>
        match Parser.compute_op pow cur lhs atom_rhs st' with
        | Value v st'' => run_loop source pow strtod_continued m v st''
        | r => r
        end
    | r => r
    end.
Proof.
  unfold run_loop at 1. simpl. unfold rhs_level.
  destruct (_ || _ || _)%bool; [reflexivity|].
  destruct (run_expr_well_behaved (left st)
              (match assoc (OperatorMap_at (tok_type (token st))) with
               | LEFT => (prec (OperatorMap_at (tok_type (token st))) + 1)%Z
               | RIGHT => prec (OperatorMap_at (tok_type (token st)))
               end) st (le_n _)) as [_ P].
  destruct (run_expr _ _ _ _ st) as [rhs s|e s|]; try reflexivity.
  specialize (P rhs s eq_refl).
  destruct (Parser.compute_op pow (token st) lhs rhs s) as [v s'|e s'|] eqn:O;
    try reflexivity.
  apply compute_op_value in O. subst s'.
  apply run_loop_fuel. lia.
Qed.

Lemma parse_run_expr :
  Parser.parse source pow strtod_continued
  = run_expr source pow strtod_continued 1 Parser.initial.
Proof.
  unfold Parser.parse. apply run_expr_fuel. unfold remaining. simpl. lia.
Qed.

End ParserFacts.

(** ** The scanner on the texts of the grammar *)

Lemma scan_blank ws s : forall p,
  blank ws -> scan (ws ++ s) p = scan s (p + length ws).
Proof.
  unfold blank. induction ws as [|c ws IH]; intros p B; simpl in *.
  - f_equal. lia.
  - apply andb_true_iff in B. destruct B as [-> B].
    rewrite IH by assumption. f_equal. lia.
Qed.

Lemma digit_run_app ds rest :
  forallb isdigit ds = true -> isdigit (hd NUL rest) = false ->
  digit_run (ds ++ rest) = ds.
Proof.
  intros D R. induction ds as [|d ds IH]; simpl in *.
  - destruct rest as [|c rest]; simpl in *; [reflexivity|]. now rewrite R.
  - apply andb_true_iff in D. destruct D as [-> D]. now rewrite IH.
Qed.

Lemma isdigit_not_blank c : isdigit c = true -> is_blank c = false.
Proof.
  intros D. destruct (is_blank c) eqn:B; [|reflexivity].
  apply is_blank_not_digit in B. congruence.
Qed.

Lemma scan_number ds rest p :
  ds <> [] -> forallb isdigit ds = true -> isdigit (hd NUL rest) = false ->
  scan (ds ++ rest) p
  = ({| tok_start := p; tok_len := length ds; tok_type := NUMBER |},
     p + length ds).
Proof.
  intros N D R. destruct ds as [|d ds]; [congruence|]. simpl in D.
  apply andb_true_iff in D. destruct D as [D1 D2]. simpl.
  rewrite (isdigit_not_blank _ D1). unfold scan_token. rewrite D1.
  now rewrite digit_run_app.
Qed.

Lemma scan_operator op r p :
  is_binary op = true -> Ascii.eqb (hd NUL r) "*" = false ->
  scan (operator_text op ++ r) p
  = ({| tok_start := p; tok_len := length (operator_text op);
        tok_type := op |},
     p + length (operator_text op)).
Proof.
  intros B R. destruct op; try discriminate; simpl; unfold scan_token; simpl;
    rewrite ?R; unfold Lexer.make_simple_token; f_equal; lia.
Qed.

Lemma phrase_head k s e :
  phrase k s e ->
  exists c s', s = c :: s' /\ Ascii.eqb c "*" = false.
Proof.
  induction 1 as [ws ds B N D|ws s ws' e B _ _ _|op l r el er ws _ _ IHl _ _ _
                 |k s e _ IH].
  - destruct ws as [|c ws]; simpl.
    + destruct ds as [|d ds]; [congruence|]. exists d, ds. split; [reflexivity|].
      simpl in D. apply andb_true_iff in D. destruct D as [D _].
      destruct (Ascii.eqb_spec d "*"); [subst; discriminate|reflexivity].
    + exists c, (ws ++ ds). split; [reflexivity|].
      unfold blank in B. simpl in B. apply andb_true_iff in B.
      destruct B as [B _].
      destruct (Ascii.eqb_spec c "*"); [subst; discriminate|reflexivity].
  - destruct ws as [|c ws]; simpl.
    + eexists _, _. split; reflexivity.
    + exists c, (ws ++ "("%char :: s ++ ws' ++ [")"%char]).
      split; [reflexivity|].
      unfold blank in B. simpl in B. apply andb_true_iff in B.
      destruct B as [B _].
      destruct (Ascii.eqb_spec c "*"); [subst; discriminate|reflexivity].
  - destruct IHl as (c & s' & -> & H). simpl. eauto.
  - exact IH.
Qed.

(** The table gives one associativity to each precedence. *)
Lemma OperatorMap_uniform a b :
  is_binary a = true -> is_binary b = true ->
  prec (OperatorMap_at a) = prec (OperatorMap_at b) ->
  assoc (OperatorMap_at a) = assoc (OperatorMap_at b).
Proof. destruct a, b; try discriminate; reflexivity || discriminate. Qed.

Lemma strtod_digits (sc : list ascii -> float) ds rest :
  forallb isdigit ds = true -> isdigit (hd NUL rest) = false ->
  continues_number (hd NUL rest) = false ->
  Parser.strtod sc (ds ++ rest) = double_of_Z (decimal_value ds).
Proof.
  intros D R C. unfold Parser.strtod. rewrite digit_run_app by assumption.
  rewrite app_nth2, Nat.sub_diag by lia.
  destruct rest; simpl in *; [reflexivity|now rewrite C].
Qed.

(** ** Precedence climbing reads the grammar *)

Section Climbing.

Variable pow : float -> float -> float.
Variable strtod_continued : list ascii -> float.

Abbreviation expr_of source := (run_expr source pow strtod_continued).
Abbreviation loop_of source := (run_loop source pow strtod_continued).

Lemma state_at_scan source q :
  state_at source q =
  {| current_position := snd (scan (skipn q source) q);
     token := fst (scan (skipn q source) q) |}.
Proof. unfold state_at. now rewrite advance_scan. Qed.

Lemma advance_state_at source st :
  Parser.next_token source st = state_at source (current_position st).
Proof. now rewrite state_at_scan, advance_scan. Qed.

Lemma state_at_blank source q ws r :
  blank ws -> skipn q source = ws ++ r ->
  state_at source q = state_at source (q + length ws).
Proof.
  intros B E. rewrite !state_at_scan, (skipn_app_inv _ _ _ _ _ E), E.
  now rewrite scan_blank.
Qed.

Lemma scan_type_offset s : forall p q,
  tok_type (fst (scan s p)) = tok_type (fst (scan s q)).
Proof.
  induction s as [|c s IH]; intros p q; simpl; [reflexivity|].
  destruct (is_blank c); [apply IH|].
  unfold scan_token.
  repeat (match goal with
          | |- context [if ?x then _ else _] => destruct x
          end; try reflexivity).
Qed.

Lemma state_at_type source q :
  tok_type (token (state_at source q)) = first_token_type (skipn q source).
Proof.
  rewrite state_at_scan. unfold first_token_type. simpl.
  apply scan_type_offset.
Qed.

Lemma loop_illegal source m v st :
  tok_type (token st) = ILLEGAL_CHARACTER ->
  loop_of source m v st = Error UnknownOperator st.
Proof. intros E. rewrite run_loop_eq. simpl. now rewrite E. Qed.

Lemma is_binary_range t :
  ((enum_value t >? enum_value POWER) || (enum_value t <? enum_value ADD))%Z
  = negb (is_binary t).
Proof. destruct t; reflexivity. Qed.

Lemma loop_stop source m v st :
  tok_type (token st) <> ILLEGAL_CHARACTER ->
  (is_binary (tok_type (token st)) = true ->
   (prec (OperatorMap_at (tok_type (token st))) < m)%Z) ->
  loop_of source m v st = Value v st.
Proof.
  intros N H. rewrite run_loop_eq. cbv zeta. rewrite is_binary_range.
  destruct (is_binary (tok_type (token st))); simpl.
  - specialize (H eq_refl). apply Z.ltb_lt in H. rewrite H.
    destruct (TokenType_eqb_eq (tok_type (token st)) ILLEGAL_CHARACTER) as [T _].
    destruct (TokenType_eqb _ _); [now specialize (T eq_refl)|reflexivity].
  - destruct (TokenType_eqb_eq (tok_type (token st)) ILLEGAL_CHARACTER) as [T _].
    destruct (TokenType_eqb _ _); [now specialize (T eq_refl)|reflexivity].
Qed.

Lemma compute_op_binary t lhs rhs st :
  is_binary (tok_type t) = true ->
  Parser.compute_op pow t lhs rhs st
  = Value (binary_value pow (tok_type t) lhs rhs) st.
Proof.
  unfold Parser.compute_op. destruct (tok_type t); try discriminate;
    reflexivity.
Qed.

Lemma loop_binary source m vl vr st1 st2 :
  is_binary (tok_type (token st1)) = true ->
  (m <= prec (OperatorMap_at (tok_type (token st1))))%Z ->
  expr_of source (rhs_level (tok_type (token st1))) st1
  = loop_of source (rhs_level (tok_type (token st1))) vr st2 ->
  (is_binary (tok_type (token st2)) = true ->
   (prec (OperatorMap_at (tok_type (token st2)))
    < rhs_level (tok_type (token st1)))%Z) ->
  loop_of source m vl st1
  = loop_of source m (binary_value pow (tok_type (token st1)) vl vr) st2.
Proof.
  intros B M E S. rewrite (run_loop_eq source pow strtod_continued m vl st1).
  cbv zeta. rewrite is_binary_range, B. simpl.
  apply Z.ltb_ge in M. rewrite M, E.
  destruct (TokenType_eqb (tok_type (token st2)) ILLEGAL_CHARACTER) eqn:I.
  - apply TokenType_eqb_eq in I. now rewrite !loop_illegal.
  - assert (N : tok_type (token st2) <> ILLEGAL_CHARACTER).
    { intros C. apply TokenType_eqb_eq in C. congruence. }
    rewrite loop_stop by assumption.
    now rewrite compute_op_binary.
Qed.

Lemma follows_mono k k' rest :
  (k <= k')%Z -> follows k rest -> follows k' rest.
Proof.
  intros L [D H]. split; [assumption|]. intros B.
  destruct (H B) as [H1|[H1 H2]]; [left; lia|].
  destruct (Z.eq_dec k k'); [right; split; congruence|left; lia].
Qed.

Lemma blank_head_not_digit ws c rest :
  blank ws -> isdigit c = false -> isdigit (hd NUL (ws ++ c :: rest)) = false.
Proof.
  intros B D. destruct ws as [|w ws]; simpl; [assumption|].
  unfold blank in B. simpl in B. apply andb_true_iff in B.
  now apply is_blank_not_digit.
Qed.

Lemma first_token_type_blank ws s :
  blank ws -> first_token_type (ws ++ s) = first_token_type s.
Proof.
  intros B. unfold first_token_type. rewrite scan_blank by assumption.
  apply scan_type_offset.
Qed.

Lemma follows_rparen k ws rest :
  blank ws -> follows k (ws ++ ")"%char :: rest).
Proof.
  intros B. split; [now apply blank_head_not_digit|].
  rewrite first_token_type_blank by assumption. discriminate.
Qed.

Lemma first_token_type_operator op r :
  is_binary op = true -> Ascii.eqb (hd NUL r) "*" = false ->
  first_token_type (operator_text op ++ r) = op.
Proof.
  intros B R. unfold first_token_type. now rewrite scan_operator.
Qed.

Lemma follows_operator op ws r :
  blank ws -> is_binary op = true -> Ascii.eqb (hd NUL r) "*" = false ->
  follows (lhs_level op) (ws ++ operator_text op ++ r).
Proof.
  intros B O R. split.
  - destruct op; try discriminate; simpl;
      now apply blank_head_not_digit.
  - rewrite first_token_type_blank, first_token_type_operator by assumption.
    intros _. unfold lhs_level. destruct (assoc (OperatorMap_at op));
      [right; split; reflexivity|left; lia].
Qed.

Lemma continues_illegal rest :
  continues_number (hd NUL rest) = true ->
  first_token_type rest = ILLEGAL_CHARACTER.
Proof.
  destruct rest as [|c r]; simpl; [discriminate|].
  unfold continues_number. intros H.
  repeat (apply orb_true_iff in H; destruct H as [H|H]);
    apply Ascii.eqb_eq in H; subst c; reflexivity.
Qed.

Lemma level_le_lhs op : (prec (OperatorMap_at op) <= lhs_level op)%Z.
Proof. unfold lhs_level. destruct (assoc _); lia. Qed.

Lemma level_le_rhs op : (prec (OperatorMap_at op) <= rhs_level op)%Z.
Proof. unfold rhs_level. destruct (assoc _); lia. Qed.

(** The main lemma: on a phrase of level [k] followed by text that does not
    continue it, [compute_expr] at any minimum precedence up to [k] does what
    its loop does when started after the phrase with the phrase's value. *)
Lemma climb k s e :
  phrase k s e ->
  forall source p rest m st,
    skipn p source = s ++ rest -> current_position st = p ->
    (m <= k)%Z -> follows k rest ->
    expr_of source m st
    = loop_of source m (eval pow e) (state_at source (p + length s)).
Proof.
  induction 1 as [ws ds B N D|ws s ws' e B B' Hs IH
                 |op l r el er ws O Hl IHl B Hr IHr|k s e Hs IH];
    intros source p rest m st E P M F.
  - (* a number *)
    rewrite <- app_assoc in E.
    pose proof (skipn_app_inv _ _ _ _ _ E) as E1.
    pose proof (skipn_app_inv _ _ _ _ _ E1) as E2.
    destruct F as [F1 F2].
    rewrite run_expr_eq. unfold Parser.compute_atom.
    rewrite advance_state_at, P, (state_at_blank _ _ _ _ B E), state_at_scan.
    rewrite E1, scan_number by assumption. simpl.
    rewrite advance_state_at. simpl. rewrite E1, length_app, Nat.add_assoc.
    destruct (continues_number (hd NUL rest)) eqn:C.
    + rewrite !loop_illegal; try reflexivity;
        now rewrite state_at_type, E2, continues_illegal.
    + now rewrite strtod_digits.
  - (* a parenthesised expression *)
    assert (E0 : skipn p source
                 = ws ++ "("%char :: s ++ ws' ++ ")"%char :: rest).
    { rewrite E. repeat (rewrite <- app_assoc; simpl). reflexivity. }
    pose proof (skipn_app_inv _ _ _ _ _ E0) as E1.
    destruct (skipn_cons_inv _ _ _ _ NUL _ E1) as (_ & _ & E2).
    pose proof (skipn_app_inv _ _ _ _ _ E2) as E3.
    pose proof (skipn_app_inv _ _ _ _ _ E3) as E4.
    destruct (skipn_cons_inv _ _ _ _ NUL _ E4) as (_ & _ & E5).
    rewrite run_expr_eq. unfold Parser.compute_atom.
    rewrite advance_state_at, P, (state_at_blank _ _ _ _ B E0), state_at_scan.
    rewrite E1. simpl.
    rewrite (IH source (S (p + length ws)) (ws' ++ ")"%char :: rest) 1%Z);
      [|assumption|reflexivity|lia|apply follows_rparen; assumption].
    rewrite (state_at_blank _ _ _ _ B' E3), state_at_scan, E4. simpl.
    rewrite advance_state_at. simpl.
    do 2 f_equal. rewrite !length_app. simpl. rewrite !length_app. simpl. lia.
  - (* a binary operator *)
    destruct (phrase_head _ _ _ Hr) as (c & r' & Er & Star).
    assert (Star' : Ascii.eqb (hd NUL (r ++ rest)) "*" = false)
      by (subst r; exact Star).
    assert (E0 : skipn p source
                 = l ++ ws ++ operator_text op ++ r ++ rest).
    { rewrite E. repeat rewrite <- app_assoc. reflexivity. }
    pose proof (skipn_app_inv _ _ _ _ _ E0) as E1.
    pose proof (skipn_app_inv _ _ _ _ _ E1) as E2.
    pose proof (skipn_app_inv _ _ _ _ _ E2) as E3.
    pose proof (skipn_app_inv _ _ _ _ _ E3) as E4.
    rewrite (IHl source p _ m st E0 P).
    2:{ pose proof (level_le_lhs op). lia. }
    2:{ now apply follows_operator. }
    rewrite (state_at_blank _ _ _ _ B E1), state_at_scan, E2.
    rewrite scan_operator by assumption. simpl.
    set (st1 := {| current_position := _; token := _ |}).
    assert (Len : p + length (l ++ ws ++ operator_text op ++ r)
                  = p + length l + length ws + length (operator_text op)
                    + length r).
    { rewrite !length_app. lia. }
    rewrite Len.
    apply (loop_binary source m (eval pow el) (eval pow er) st1).
    + exact O.
    + exact M.
    + apply (IHr source _ rest); auto using Z.le_refl.
      apply (follows_mono (prec (OperatorMap_at op))); [apply level_le_rhs|].
      exact F.
    + rewrite state_at_type, E4. simpl. intros Bt.
      destruct F as [_ F]. destruct (F Bt) as [F1|[F1 F2]].
      * pose proof (level_le_rhs op). lia.
      * pose proof (OperatorMap_uniform _ _ Bt O F1) as U.
        unfold rhs_level. rewrite <- U, F2. lia.
  - (* a phrase of a higher level *)
    apply (IH source p rest); auto; [lia|].
    apply (follows_mono k); [lia|assumption].
Qed.

Lemma leftover_follows k rest : leftover rest = true -> follows k rest.
Proof.
  unfold leftover. intros H. apply andb_true_iff in H. destruct H as [D T].
  split; [now apply negb_true_iff in D|].
  destruct (first_token_type rest); discriminate.
Qed.

(** [parse] on a valid expression followed by text it leaves unread. *)
Lemma parse_phrase_leftover s e rest :
  phrase 1 s e -> leftover rest = true ->
  Parser.parse (s ++ rest) pow strtod_continued
  = Value (eval pow e) (state_at (s ++ rest) (length s)).
Proof.
  intros H L. rewrite parse_run_expr.
  rewrite (climb 1 s e H (s ++ rest) 0 rest 1%Z Parser.initial eq_refl eq_refl
             (Z.le_refl _) (leftover_follows _ _ L)).
  simpl. apply loop_stop.
  - rewrite state_at_type, skipn_app, Nat.sub_diag, skipn_all. simpl.
    unfold leftover in L. apply andb_true_iff in L. destruct L as [_ L].
    destruct (first_token_type rest); discriminate.
  - rewrite state_at_type, skipn_app, Nat.sub_diag, skipn_all. simpl.
    unfold leftover in L. apply andb_true_iff in L. destruct L as [_ L].
    destruct (first_token_type rest); discriminate.
Qed.

Lemma blank_leftover ws : blank ws -> leftover ws = true.
Proof.
  intros B. unfold leftover.
  rewrite <- (app_nil_r ws) at 2.
  rewrite first_token_type_blank by assumption.
  destruct ws as [|c ws]; [reflexivity|].
  unfold blank in B. simpl in B. apply andb_true_iff in B. destruct B as [B _].
  simpl. now rewrite (is_blank_not_digit _ B).
Qed.

(** Where an atom is required, the first token decides. *)
Lemma atom_required source :
  match first_token_type source with
  | NUMBER | LEFT_PAREN => True
  | END_OF_FILE =>
      Parser.parse source pow strtod_continued
      = Error UnexpectedEndOfExpression (state_at source 0)
  | _ =>
      Parser.parse source pow strtod_continued
      = Error UnexpectedToken (state_at source 0)
  end.
Proof.
  pose proof (state_at_type source 0) as T. simpl in T.
  destruct (first_token_type source) eqn:F; try exact I;
    rewrite parse_run_expr, run_expr_eq; unfold Parser.compute_atom;
    rewrite advance_state_at; simpl; rewrite T; reflexivity.
Qed.

End Climbing.

(** ** The error location on a plain line *)

Section ErrorLocation.

Variable source : list ascii.

Lemma deref_in i :
  i <= length source ->
  Parser.deref source (Z.of_nat i) = Some (nth i source NUL).
Proof.
  intros H. unfold Parser.deref.
  replace ((0 <=? Z.of_nat i)%Z) with true by (symmetry; apply Z.leb_le; lia).
  replace ((Z.of_nat i <=? Z.of_nat (length source))%Z) with true
    by (symmetry; apply Z.leb_le; lia).
  simpl. now rewrite Nat2Z.id.
Qed.

Lemma plain_line_nth i :
  plain_line source = true -> i < length source ->
  Ascii.eqb (nth i source NUL) LF = false /\
  Ascii.eqb (nth i source NUL) NUL = false.
Proof.
  intros P H. unfold plain_line in P. rewrite forallb_forall in P.
  specialize (P (nth i source NUL) (nth_In _ _ H)).
  apply andb_true_iff in P. destruct P as [P1 P2].
  split; now apply negb_true_iff.
Qed.

Lemma plain_line_not_LF i :
  plain_line source = true -> Ascii.eqb (nth i source NUL) LF = false.
Proof.
  intros P. destruct (Nat.lt_ge_cases i (length source)) as [H|H].
  - now apply plain_line_nth.
  - now rewrite nth_overflow.
Qed.

Lemma start_of_line_loop_plain n :
  plain_line source = true -> n <= length source ->
  Parser.start_of_line_loop source (S n) (Z.of_nat n) = Some 0%Z.
Proof.
  intros P. induction n as [|n IH]; intros H.
  - cbn [Parser.start_of_line_loop]. rewrite (deref_in 0) by lia.
    rewrite plain_line_not_LF by assumption. reflexivity.
  - cbn [Parser.start_of_line_loop]. rewrite deref_in by assumption.
    rewrite plain_line_not_LF by assumption.
    replace ((0 <? Z.of_nat (S n))%Z) with true by (symmetry; apply Z.ltb_lt; lia).
    cbn [negb andb].
    replace (Z.of_nat (S n) - 1)%Z with (Z.of_nat n) by lia.
    apply IH. lia.
Qed.

Lemma end_of_line_loop_plain k :
  plain_line source = true ->
  forall i fuel, i + k = length source -> k < fuel ->
    Parser.end_of_line_loop source fuel (Z.of_nat i)
    = Some (Z.of_nat (length source)).
Proof.
  intros P. induction k as [|k IH]; intros i fuel E F;
    (destruct fuel as [|fuel]; [lia|]); cbn [Parser.end_of_line_loop];
    rewrite deref_in by lia.
  - rewrite nth_overflow by lia. simpl. do 2 f_equal. lia.
  - destruct (plain_line_nth i P) as [-> ->]; [lia|]. cbn [negb andb].
    replace (Z.of_nat i + 1)%Z with (Z.of_nat (S i)) by lia.
    apply IH; lia.
Qed.

(** The budgets of the two scans are never used up: started within the
    string they end within it, so that [None] is a read outside it. *)
Lemma start_of_line_loop_total n :
  n <= length source ->
  exists z, Parser.start_of_line_loop source (S n) (Z.of_nat n) = Some z
            /\ (0 <= z <= Z.of_nat n)%Z.
Proof.
  induction n as [|n IH]; intros H; cbn [Parser.start_of_line_loop];
    rewrite deref_in by assumption.
  - exists 0%Z. split; [|lia].
    destruct (negb _); reflexivity.
  - destruct (negb (Ascii.eqb (nth (S n) source NUL) LF)); cbn [andb].
    + replace ((0 <? Z.of_nat (S n))%Z) with true
        by (symmetry; apply Z.ltb_lt; lia).
      replace (Z.of_nat (S n) - 1)%Z with (Z.of_nat n) by lia.
      destruct IH as (z & E & B); [lia|]. exists z. split; [exact E|lia].
    + exists (Z.of_nat (S n)). split; [reflexivity|lia].
Qed.

Lemma end_of_line_loop_total k : forall i fuel,
  i + k = length source -> k < fuel ->
  exists e, Parser.end_of_line_loop source fuel (Z.of_nat i)
            = Some (Z.of_nat e)
            /\ i <= e <= length source.
Proof.
  induction k as [|k IH]; intros i fuel E F;
    (destruct fuel as [|fuel]; [lia|]); cbn [Parser.end_of_line_loop];
    rewrite deref_in by lia.
  - rewrite nth_overflow by lia. exists i. split; [reflexivity|lia].
  - destruct (negb _ && negb _).
    + replace (Z.of_nat i + 1)%Z with (Z.of_nat (S i)) by lia.
      destruct (IH (S i) fuel) as (e & H & B); try lia.
      exists e. split; [exact H|lia].
    + exists i. split; [reflexivity|lia].
Qed.

Lemma skipn_nth (A : Type) (l : list A) (d : A) : forall i,
  i < length l -> skipn i l = nth i l d :: skipn (S i) l.
Proof.
  induction l as [|a l IH]; intros [|i] H; simpl in *; try lia.
  - reflexivity.
  - rewrite IH by lia. reflexivity.
Qed.

Lemma copy_loop_firstn n : forall i,
  i + n <= length source ->
  Parser.copy_loop source n (Z.of_nat i) = Some (firstn n (skipn i source)).
Proof.
  induction n as [|n IH]; intros i H.
  - reflexivity.
  - cbn [Parser.copy_loop]. rewrite deref_in by lia.
    replace (Z.of_nat i + 1)%Z with (Z.of_nat (S i)) by lia.
    rewrite IH by lia. rewrite (skipn_nth _ source NUL i) by lia.
    reflexivity.
Qed.

Lemma deref_0 : Parser.deref source 0 = Some (nth 0 source NUL).
Proof. apply (deref_in 0). lia. Qed.

Lemma end_of_line_loop_plain_0 :
  plain_line source = true ->
  Parser.end_of_line_loop source (S (S (length source))) 0
  = Some (Z.of_nat (length source)).
Proof.
  intros P. apply (end_of_line_loop_plain (length source) P 0); lia.
Qed.

Lemma copy_loop_firstn_0 n :
  n <= length source ->
  Parser.copy_loop source n 0 = Some (firstn n source).
Proof. intros H. apply (copy_loop_firstn n 0). lia. Qed.

Lemma size_t_small z : (0 <= z < 2 ^ 64)%Z -> size_t z = z.
Proof. intros H. unfold size_t. now apply Z.mod_small. Qed.

Lemma nth_last (l : list ascii) :
  l <> [] -> nth (length l - 1) l NUL = last l NUL.
Proof.
  intros N. destruct (exists_last N) as (l' & a & ->).
  rewrite last_last, length_app, app_nth2 by (simpl; lia).
  simpl. now replace (length l' + 1 - 1 - length l') with 0 by lia.
Qed.

(** On a non-empty plain line the location text is the line (without a
    final carriage return), a line feed, as many spaces as the offset of the
    lookahead token, and the caret; every character read is in bounds. *)
Lemma show_error_location_plain st :
  source <> [] -> plain_line source = true ->
  (Z.of_nat (length source) < 2 ^ 64)%Z ->
  tok_start (token st) <= length source ->
  Parser.show_error_location source st
  = Some (rendered_line source ++ [LF]
            ++ repeat SPACE (tok_start (token st)) ++ ["^"%char]).
Proof.
  intros N P L T. unfold Parser.show_error_location.
  assert (Len : 0 < length source) by (destruct source; simpl; [congruence|lia]).
  rewrite start_of_line_loop_plain by assumption.
  rewrite deref_0.
  destruct (plain_line_nth 0 P Len) as [_ ->].
  rewrite end_of_line_loop_plain_0 by assumption.
  replace (Z.of_nat (length source) - 1)%Z with (Z.of_nat (length source - 1))
    by lia.
  rewrite deref_in by lia. rewrite nth_last by assumption.
  unfold rendered_line.
  rewrite (size_t_small (Z.of_nat (tok_start (token st)) - 0)) by lia.
  replace (Z.to_nat (Z.of_nat (tok_start (token st)) - 0))
    with (tok_start (token st)) by lia.
  destruct (Ascii.eqb (last source NUL) CR).
  - rewrite size_t_small by lia.
    replace (Z.to_nat (Z.of_nat (length source - 1) - 0))
      with (length source - 1) by lia.
    rewrite copy_loop_firstn_0 by lia.
    rewrite removelast_firstn_len.
    now replace (pred (length source)) with (length source - 1) by lia.
  - rewrite size_t_small by lia.
    replace (Z.to_nat (Z.of_nat (length source) - 0)) with (length source)
      by lia.
    rewrite copy_loop_firstn_0 by lia.
    now rewrite firstn_all.
Qed.

End ErrorLocation.

(** ** The lookahead token lies in the line *)

Section TokenBounds.

Variable source : list ascii.
Variable pow : float -> float -> float.
Variable strtod_continued : list ascii -> float.

Lemma advance_in_bounds st :
  current_position st <= length source ->
  in_bounds source (Parser.next_token source st).
Proof.
  intros H. rewrite advance_scan. unfold in_bounds. simpl.
  pose proof (scan_bounds (skipn (current_position st) source)
                (current_position st)) as B.
  destruct (scan _ _) as [t q]. simpl. rewrite length_skipn in B. lia.
Qed.

Lemma atom_in_bounds f st :
  (forall m s, current_position s <= length source ->
               outcome_in_bounds source (f m s)) ->
  current_position st <= length source ->
  outcome_in_bounds source (Parser.compute_atom source strtod_continued f st).
Proof.
  intros Hf H. unfold Parser.compute_atom.
  pose proof (advance_in_bounds st H) as A.
  destruct (TokenType_eqb _ LEFT_PAREN).
  - specialize (Hf 1%Z _ (proj1 A)).
    destruct (f 1%Z _) as [v s|k s|]; simpl in *; auto.
    destruct (negb _); simpl; auto.
    apply advance_in_bounds. apply Hf.
  - destruct (TokenType_eqb _ END_OF_FILE); simpl; auto.
    destruct (negb _); simpl; auto.
    apply advance_in_bounds. apply A.
Qed.

Lemma loop_in_bounds f :
  (forall m s, current_position s <= length source ->
               outcome_in_bounds source (f m s)) ->
  forall n m lhs st, in_bounds source st ->
    outcome_in_bounds source (Parser.while_loop pow n f m lhs st).
Proof.
  intros Hf. induction n as [|n IH]; intros m lhs st H; simpl; [exact I|].
  destruct (_ || _ || _)%bool.
  - destruct (TokenType_eqb _ _); simpl; assumption.
  - match goal with
    | |- context [f ?m' st] => specialize (Hf m' st (proj1 H));
                               destruct (f m' st) as [rhs s|k s|]
    end; simpl in *; auto.
    destruct (Parser.compute_op pow (token st) lhs rhs s) as [v s'|k s'|] eqn:O;
      simpl; auto.
    + apply compute_op_value in O. subst s'. now apply IH.
    + unfold Parser.compute_op in O. destruct (tok_type (token st));
        inversion O; subst; assumption.
Qed.

Lemma compute_expr_in_bounds n : forall m st,
  current_position st <= length source ->
  outcome_in_bounds source (Parser.compute_expr source pow strtod_continued n m st).
Proof.
  induction n as [|n IH]; intros m st H; [exact I|].
  rewrite compute_expr_S.
  pose proof (atom_in_bounds _ st IH H) as A.
  destruct (Parser.compute_atom _ _ _ st) as [lhs s|k s|]; simpl in *; auto.
  now apply loop_in_bounds.
Qed.

Lemma parse_error_in_bounds k st :
  Parser.parse source pow strtod_continued = Error k st ->
  tok_start (token st) <= length source.
Proof.
  intros E.
  pose proof (compute_expr_in_bounds (S (length source)) 1 Parser.initial
                (Nat.le_0_l _)) as B.
  unfold Parser.parse in E. rewrite E in B. apply B.
Qed.

(** The text of the exception on a non-empty plain line. *)
Lemma run_line_error_plain k st :
  source <> [] -> plain_line source = true ->
  (Z.of_nat (length source) < 2 ^ 64)%Z ->
  Parser.parse source pow strtod_continued = Error k st ->
  run_line pow strtod_continued source
  = Caught (error_message k ++ rendered_line source ++ [LF]
              ++ repeat SPACE (tok_start (token st)) ++ ["^"%char]).
Proof.
  intros N P L E. unfold run_line, Parser.report_error. rewrite E.
  rewrite show_error_location_plain; auto.
  now apply parse_error_in_bounds with (k := k).
Qed.

End TokenBounds.

(** * Properties of the specification *)

Lemma phrase_weaken_le k k' s e :
  (k <= k')%Z -> phrase k' s e -> phrase k s e.
Proof.
  intros L H.
  assert (G : forall n j, phrase (j + Z.of_nat n) s e -> phrase j s e).
  { induction n as [|n IH]; intros j Hj.
    - now rewrite Z.add_0_r in Hj.
    - apply phrase_weaken, IH.
      now replace (j + 1 + Z.of_nat n)%Z with (j + Z.of_nat (S n))%Z by lia. }
  apply (G (Z.to_nat (k' - k))).
  now replace (k + Z.of_nat (Z.to_nat (k' - k)))%Z with k' by lia.
Qed.

(** A number, possibly after blanks, at any level. *)
Lemma phrase_literal k ws digits :
  (k <=? atom_level)%Z = true -> forallb is_blank ws = true ->
  negb (Nat.eqb (length digits) 0) && forallb isdigit digits = true ->
  phrase k (ws ++ digits) (Num digits).
Proof.
  intros L B D. apply andb_true_iff in D. destruct D as [N D].
  apply Z.leb_le in L.
  apply (phrase_weaken_le k atom_level); [assumption|].
  apply phrase_number; auto. intros ->. discriminate.
Qed.

(** C1: for every valid expression over [+ - * / **] and parentheses
    (a phrase of level 1 of the grammar the operator table dictates, blanks
    allowed before every token and after the last), [parse] returns the value
    of the grouping the grammar gives it; in particular 8 - 3 - 2 is 3,
    2 + 3 * 4 is 14 and (2 + 3) * 4 is 20. *)
Theorem parse_valid_expression pow strtod_continued :
  (forall s e trailing,
     phrase 1 s e -> blank trailing ->
     result_value (Parser.parse (s ++ trailing) pow strtod_continued)
     = Some (eval pow e))
  /\ result_value (Parser.parse (text "8 - 3 - 2") pow strtod_continued)
     = Some 3%float
  /\ result_value (Parser.parse (text "2 + 3 * 4") pow strtod_continued)
     = Some 14%float
  /\ result_value (Parser.parse (text "(2 + 3) * 4") pow strtod_continued)
     = Some 20%float.
Proof.
  split; [|repeat split; reflexivity].
  intros s e trailing H B.
  now rewrite (parse_phrase_leftover pow strtod_continued s e trailing H
                 (blank_leftover _ B)).
Qed.

Lemma parse_valid_expression_witness :
  result_value
    (Parser.parse (text "8 - 3 - 2" ++ []) sample_pow sample_strtod_continued)
  = Some (eval sample_pow
            (Bin SUBTRACT (Bin SUBTRACT (Num (text "8")) (Num (text "3")))
               (Num (text "2")))).
Proof.
  apply (proj1 (parse_valid_expression sample_pow sample_strtod_continued)).
  - apply (phrase_binary SUBTRACT (text "8 - 3") (text " 2") _ _ (text " "));
      [reflexivity| |reflexivity|].
    + apply (phrase_binary SUBTRACT (text "8") (text " 3") _ _ (text " "));
        [reflexivity| |reflexivity|].
      * apply (phrase_literal _ []); [reflexivity|reflexivity|reflexivity].
      * apply (phrase_literal _ (text " "));
          [reflexivity|reflexivity|reflexivity].
    + apply (phrase_literal _ (text " "));
        [reflexivity|reflexivity|reflexivity].
  - reflexivity.
Defined.

(** C2: [**] is right-associative.  When the lookahead is [**] and the
    minimum precedence admits it, the loop of [compute_expr] recurses at the
    precedence of [**] itself, unchanged; a chain [a ** b ** c] of atoms
    evaluates as [pow a (pow b c)]; in particular 2 ** 3 ** 2 is
    [pow 2 (pow 3 2)], which is 512 whenever [pow] is exact on these
    operands. *)
Theorem power_right_associative pow strtod_continued :
  (forall fuel f m lhs st,
     tok_type (token st) = POWER -> (m <= prec (OperatorMap_at POWER))%Z ->
     Parser.while_loop pow (S fuel) f m lhs st
     = match f (prec (OperatorMap_at POWER)) st with
       | Value rhs st' => Parser.while_loop pow fuel f m (pow lhs rhs) st'
       | r => r
       end)
  /\ (forall a b c ea eb ec ws1 ws2 trailing,
        phrase atom_level a ea -> phrase atom_level b eb ->
        phrase atom_level c ec ->
        blank ws1 -> blank ws2 -> blank trailing ->
        result_value
          (Parser.parse
             (a ++ ws1 ++ text "**" ++ b ++ ws2 ++ text "**" ++ c ++ trailing)
             pow strtod_continued)
        = Some (pow (eval pow ea) (pow (eval pow eb) (eval pow ec))))
  /\ result_value (Parser.parse (text "2 ** 3 ** 2") pow strtod_continued)
     = Some (pow 2 (pow 3 2))%float
  /\ (pow 3 2 = 9 -> pow 2 9 = 512 ->
      result_value (Parser.parse (text "2 ** 3 ** 2") pow strtod_continued)
      = Some 512)%float.
Proof.
  split; [|split; [|split]].
  - intros fuel f m lhs st T M. cbn [Parser.while_loop]. cbv zeta.
    rewrite T. apply Z.ltb_ge in M.
    change (prec (OperatorMap_at POWER)) with 3%Z in *. rewrite M.
    cbn [enum_value Z.gtb Z.ltb Z.compare Pos.compare Pos.compare_cont orb
         assoc OperatorMap_at].
    change (assoc (OperatorMap_at POWER)) with RIGHT. cbv iota.
    destruct (f 3%Z st) as [rhs st'|k st'|]; try reflexivity.
    unfold Parser.compute_op. now rewrite T.
  - intros a b c ea eb ec ws1 ws2 trailing Ha Hb Hc B1 B2 B3.
    assert (H : phrase 1 (a ++ ws1 ++ text "**" ++ b ++ ws2 ++ text "**" ++ c)
                  (Bin POWER ea (Bin POWER eb ec))).
    { apply (phrase_weaken_le 1 3); [lia|].
      apply (phrase_binary POWER a _ ea _ ws1); auto.
      apply (phrase_binary POWER b c eb ec ws2); auto.
      apply (phrase_weaken_le _ atom_level); [cbv; discriminate|assumption]. }
    pose proof (parse_phrase_leftover pow strtod_continued _ _ trailing H
                  (blank_leftover _ B3)) as E.
    repeat rewrite <- app_assoc in E. rewrite E. reflexivity.
  - vm_compute. reflexivity.
  - intros H1 H2. rewrite <- H2, <- H1. vm_compute. reflexivity.
Qed.

Lemma power_right_associative_witness :
  result_value
    (Parser.parse (text "2 ** 3 ** 2") sample_pow sample_strtod_continued)
  = Some 512%float.
Proof.
  apply (proj2 (proj2 (proj2 (power_right_associative
                                sample_pow sample_strtod_continued))));
    reflexivity.
Defined.


(** C4: malformed input raises the specified kind of error and no value:
    an unclosed parenthesis raises "Unmatched '('", an expression that ends
    where an atom is required raises "Unexpected end of expression", and an
    illegal character where an atom is required raises "Unexpected
    character"; in general, where an atom is required, the end of the input
    raises the second and every token other than a number or a left
    parenthesis raises the third. *)
Theorem malformed_input_raises pow strtod_continued :
  (raised (Parser.parse (text "(1 + 2") pow strtod_continued)
   = Some UnmatchedParen
   /\ run_line pow strtod_continued (text "(1 + 2")
      = Caught (text "Unmatched '(':" ++ [LF] ++ text "(1 + 2" ++ [LF]
                  ++ text "      ^"))
  /\ (raised (Parser.parse (text "1 + ") pow strtod_continued)
      = Some UnexpectedEndOfExpression
      /\ run_line pow strtod_continued (text "1 + ")
         = Caught (text "Unexpected end of expression: " ++ [LF]
                     ++ text "1 + " ++ [LF] ++ text "    ^"))
  /\ (raised (Parser.parse (text "@") pow strtod_continued)
      = Some UnexpectedToken
      /\ run_line pow strtod_continued (text "@")
         = Caught (text "Unexpected character: " ++ [LF] ++ text "@" ++ [LF]
                     ++ text "^"))
  /\ (forall source,
        match first_token_type source with
        | NUMBER | LEFT_PAREN => True
        | END_OF_FILE =>
            raised (Parser.parse source pow strtod_continued)
            = Some UnexpectedEndOfExpression
        | _ =>
            raised (Parser.parse source pow strtod_continued)
            = Some UnexpectedToken
        end).
Proof.
  repeat split; try reflexivity.
  intros source. pose proof (atom_required pow strtod_continued source) as H.
  destruct (first_token_type source); try exact I; now rewrite H.
Qed.



(** C8: division by zero is not special-cased.  [compute_op] on a [/] token
    returns the binary64 quotient whatever the divisor is; the quotients by
    zero are the infinities and NaN of IEEE 754; 1 / 0 parses without an
    error and yields positive infinity. *)
Theorem division_by_zero_is_not_an_error pow strtod_continued :
  (forall start len lhs rhs st,
     Parser.compute_op pow
       {| tok_start := start; tok_len := len; tok_type := DIVIDE |} lhs rhs st
     = Value (lhs / rhs)%float st)
  /\ ((1 / 0 = infinity) /\ (-1 / 0 = neg_infinity) /\ (0 / 0 = nan))%float
  /\ result_value (Parser.parse (text "1 / 0") pow strtod_continued)
     = Some infinity
  /\ run_line pow strtod_continued (text "1 / 0") = Printed infinity.
Proof. repeat split; reflexivity. Qed.

(** C5: on the empty line the caret is not placed at the offset of the
    offending token.  [parse] calls [report_error] with the end-of-input
    token at offset 0; [show_error_location] then steps over the terminator
    to offset 1, where the text it reads is not the string's, and the number
    of spaces before the caret, 0 - 1 in [size_t], is 2^64 - 1, not 0: no
    error text with the caret in column 0 results. *)
Theorem caret_on_empty_line pow strtod_continued :
  Parser.parse [] pow strtod_continued
  = Error UnexpectedEndOfExpression
      {| current_position := 0;
         token := {| tok_start := 0; tok_len := 1; tok_type := END_OF_FILE |}
      |}
  /\ size_t (0 - 1) = (2 ^ 64 - 1)%Z
  /\ run_line pow strtod_continued [] = Undefined.
Proof. repeat split; reflexivity. Qed.

(** C6, as stated, fails: the error text does not end with the message. *)
Lemma error_text_starts_with_message :
  run_line sample_pow sample_strtod_continued (text "@")
  = Caught (text "Unexpected character: " ++ [LF] ++ text "@" ++ [LF]
              ++ text "^")
  /\ ~ (exists n,
          run_line sample_pow sample_strtod_continued (text "@")
          = Caught (layout_message_last (text "@") n
                      (error_message UnexpectedToken))).
Proof.
  split; [reflexivity|]. intros [n H]. vm_compute in H. discriminate H.
Qed.

(** C6, amended: for every failing input line that is not empty and holds
    no NUL, the error text is the message (which ends its line), then the
    source line without a carriage return at its end, then on a new line as
    many spaces as the offset of the lookahead token and a single caret. *)
Theorem error_text_layout source pow strtod_continued k st :
  0 < length source -> plain_line source = true ->
  (Z.of_nat (length source) < 2 ^ 64)%Z ->
  Parser.parse source pow strtod_continued = Error k st ->
  run_line pow strtod_continued source
  = Caught (error_message k ++ rendered_line source ++ [LF]
              ++ repeat SPACE (tok_start (token st)) ++ ["^"%char]).
Proof.
  intros N P L E. apply run_line_error_plain; auto.
  intros ->. simpl in N. lia.
Qed.

Lemma error_text_layout_witness :
  run_line sample_pow sample_strtod_continued (text "1 + ")
  = Caught (error_message UnexpectedEndOfExpression
              ++ rendered_line (text "1 + ") ++ [LF]
              ++ repeat SPACE 4 ++ ["^"%char]).
Proof.
  apply (error_text_layout (text "1 + ") sample_pow sample_strtod_continued
           UnexpectedEndOfExpression
           {| current_position := 4;
              token := {| tok_start := 4; tok_len := 1;
                          tok_type := END_OF_FILE |} |});
    [simpl; lia|reflexivity|reflexivity|reflexivity].
Defined.

(** C9: evaluation of a line terminates.  [parse] returns a value or calls
    [report_error]; every budget above the length of the line gives the same
    result; a token advances the cursor, by at least one character unless it
    is the end of input, and never past the end of the line; and
    [compute_expr] finishes within a budget of the characters left, a value
    leaving fewer characters. *)
Theorem evaluation_terminates source pow strtod_continued :
  ((exists v st, Parser.parse source pow strtod_continued = Value v st)
   \/ (exists k st, Parser.parse source pow strtod_continued = Error k st))
  /\ (forall n, length source < n ->
        Parser.compute_expr source pow strtod_continued n 1 Parser.initial
        = Parser.parse source pow strtod_continued)
  /\ (forall p,
        p <= snd (Lexer.next_token source p)
        /\ snd (Lexer.next_token source p) <= Nat.max p (length source)
        /\ (tok_type (fst (Lexer.next_token source p)) <> END_OF_FILE ->
            p < snd (Lexer.next_token source p)))
  /\ (forall n m st, remaining source st < n ->
        Parser.compute_expr source pow strtod_continued n m st <> OutOfFuel
        /\ (forall v st',
              Parser.compute_expr source pow strtod_continued n m st
              = Value v st' ->
              remaining source st' < remaining source st)).
Proof.
  split; [|split; [|split]].
  - rewrite parse_run_expr.
    destruct (run_expr_well_behaved source pow strtod_continued
                (remaining source Parser.initial) 1%Z Parser.initial (le_n _))
      as [H _].
    destruct (run_expr _ _ _ _ _) as [v st|k st|]; [left|right|congruence];
      eauto.
  - intros n H. rewrite parse_run_expr. apply run_expr_fuel.
    unfold remaining. simpl. lia.
  - intros p. rewrite next_token_scan.
    pose proof (scan_bounds (skipn p source) p) as B.
    destruct (scan _ _) as [t q]. simpl. rewrite length_skipn in B.
    destruct B as (B1 & B2 & B3 & B4). repeat split; try lia.
    intros E. specialize (B4 E). lia.
  - intros n m st H.
    destruct (fuel_enough source pow strtod_continued
                (S (remaining source st)) st (le_n _) n m H) as (_ & H1 & H2).
    split; assumption.
Qed.

Lemma evaluation_terminates_witness :
  Parser.compute_expr (text "1 + 2") sample_pow sample_strtod_continued 100
    1 Parser.initial
  = Parser.parse (text "1 + 2") sample_pow sample_strtod_continued.
Proof.
  apply (proj1 (proj2 (evaluation_terminates (text "1 + 2") sample_pow
                         sample_strtod_continued))).
  simpl. lia.
Defined.

(** C10: on the empty line the error location reads outside the string.
    With the end-of-input token at offset 0 the backward scan stays at 0,
    the character there is the terminator, the start of the line is moved to
    offset 1, and the forward scan reads there, past the terminator. *)
Theorem error_location_reads_past_terminator pow strtod_continued :
  Parser.parse [] pow strtod_continued
  = Error UnexpectedEndOfExpression (state_at [] 0)
  /\ Parser.start_of_line_loop [] 1 0 = Some 0%Z
  /\ Parser.deref [] 0 = Some NUL
  /\ Parser.deref [] 1 = None
  /\ Parser.end_of_line_loop [] 2 1 = None
  /\ Parser.show_error_location [] (state_at [] 0) = None.
Proof. repeat split; reflexivity. Qed.


(** * Further properties of the lexer and the parser *)

(** ** The lookahead at the end of a call *)

Section Lookahead.

Variable source : list ascii.
Variable pow : float -> float -> float.
Variable strtod_continued : list ascii -> float.

Lemma stops_at_1 t :
  stops_at 1 t = true ->
  t = NUMBER \/ t = LEFT_PAREN \/ t = RIGHT_PAREN \/ t = END_OF_FILE.
Proof. destruct t; try discriminate; auto. Qed.

Lemma atom_lookahead f st :
  (forall m s, lookahead_ok m (f m s)) ->
  match Parser.compute_atom source strtod_continued f st with
  | Error k s => error_token_ok k (tok_type (token s)) = true
  | _ => True
  end.
Proof.
  intros Hf. unfold Parser.compute_atom.
  set (st1 := Parser.next_token source st).
  destruct (TokenType_eqb (tok_type (token st1)) LEFT_PAREN) eqn:E1.
  - specialize (Hf 1%Z st1).
    destruct (f 1%Z st1) as [v s|k s|]; simpl in *; auto.
    destruct (TokenType_eqb (tok_type (token s)) RIGHT_PAREN) eqn:E2;
      simpl; auto.
    destruct (stops_at_1 _ Hf) as [H|[H|[H|H]]]; rewrite H in *;
      try reflexivity; discriminate.
  - destruct (TokenType_eqb (tok_type (token st1)) END_OF_FILE) eqn:E2.
    + apply TokenType_eqb_eq in E2. now rewrite E2.
    + destruct (TokenType_eqb (tok_type (token st1)) NUMBER) eqn:E3;
        simpl; auto.
      destruct (tok_type (token st1)); try reflexivity; discriminate.
Qed.

Lemma loop_lookahead f :
  (forall m s, lookahead_ok m (f m s)) ->
  forall n m lhs st, lookahead_ok m (Parser.while_loop pow n f m lhs st).
Proof.
  intros Hf. induction n as [|n IH]; intros m lhs st; [exact I|].
  cbn [Parser.while_loop]. cbv zeta. rewrite is_binary_range.
  destruct (negb (is_binary (tok_type (token st)))
            || (prec (OperatorMap_at (tok_type (token st))) <? m)%Z)%bool
    eqn:C.
  - destruct (TokenType_eqb (tok_type (token st)) ILLEGAL_CHARACTER) eqn:I.
    + apply TokenType_eqb_eq in I. simpl. now rewrite I.
    + simpl. unfold stops_at. now rewrite I, C.
  - apply orb_false_iff in C. destruct C as [C _].
    apply negb_false_iff in C.
    match goal with
    | |- context [f ?m' st] => specialize (Hf m' st);
                               destruct (f m' st) as [rhs s|k s|]
    end; simpl in *; auto.
    rewrite compute_op_binary by assumption. apply IH.
Qed.

Lemma compute_expr_lookahead n : forall m st,
  lookahead_ok m (Parser.compute_expr source pow strtod_continued n m st).
Proof.
  induction n as [|n IH]; intros m st; [exact I|].
  rewrite compute_expr_S.
  pose proof (atom_lookahead _ st IH) as A.
  destruct (Parser.compute_atom _ _ _ st) as [lhs s|k s|]; simpl in *; auto.
  now apply loop_lookahead.
Qed.

End Lookahead.

(** X1: when [parse] returns a value, the token it leaves unread is a
    number, a parenthesis or the end of the input: never a binary operator
    and never an illegal character. *)
Theorem parse_value_lookahead source pow strtod_continued v st :
  Parser.parse source pow strtod_continued = Value v st ->
  tok_type (token st) = NUMBER \/ tok_type (token st) = LEFT_PAREN
  \/ tok_type (token st) = RIGHT_PAREN \/ tok_type (token st) = END_OF_FILE.
Proof.
  intros E.
  pose proof (compute_expr_lookahead source pow strtod_continued
                (S (length source)) 1 Parser.initial) as H.
  unfold Parser.parse in E. rewrite E in H. now apply stops_at_1.
Qed.

Lemma parse_value_lookahead_witness :
  tok_type (token (state_at (text "1 + 2 )") 5)) = NUMBER
  \/ tok_type (token (state_at (text "1 + 2 )") 5)) = LEFT_PAREN
  \/ tok_type (token (state_at (text "1 + 2 )") 5)) = RIGHT_PAREN
  \/ tok_type (token (state_at (text "1 + 2 )") 5)) = END_OF_FILE.
Proof.
  apply (parse_value_lookahead (text "1 + 2 )") sample_pow
           sample_strtod_continued 3%float).
  reflexivity.
Defined.

(** X2: every error is raised at a lookahead token that fits its kind:
    "Unknown operator" at an illegal character, "Unexpected end of
    expression" at the end of the input, "Unexpected character" at a token
    that is neither a number, a left parenthesis nor the end of the input,
    and "Unmatched '('" at a number, a left parenthesis or the end of the
    input.  In particular the defensive "Unknown operator" of [compute_op]
    is never raised. *)
Theorem parse_error_token source pow strtod_continued k st :
  Parser.parse source pow strtod_continued = Error k st ->
  error_token_ok k (tok_type (token st)) = true.
Proof.
  intros E.
  pose proof (compute_expr_lookahead source pow strtod_continued
                (S (length source)) 1 Parser.initial) as H.
  unfold Parser.parse in E. now rewrite E in H.
Qed.

Lemma parse_error_token_witness :
  error_token_ok UnmatchedParen
    (tok_type (token (state_at (text "(1 2") 2))) = true.
Proof.
  apply (parse_error_token (text "(1 2") sample_pow sample_strtod_continued).
  reflexivity.
Defined.


(** ** What a token spans *)

Lemma firstn_digit_run s : firstn (length (digit_run s)) s = digit_run s.
Proof.
  induction s as [|c s IH]; simpl; [reflexivity|].
  destruct (isdigit c); simpl; [now rewrite IH|reflexivity].
Qed.

Lemma scan_token_shape c s p :
  is_blank c = false ->
  tok_start (fst (scan_token c s p)) = p /\
  token_shape (fst (scan_token c s p)) (snd (scan_token c s p)) (c :: s).
Proof.
  intros B. unfold scan_token.
  destruct (isdigit c) eqn:D.
  { split; [reflexivity|]. unfold token_shape.
    cbn [fst snd tok_type tok_len tok_start digit_run]. rewrite D.
    repeat split.
    - cbn [firstn]. now rewrite firstn_digit_run.
    - lia. }
  destruct (Ascii.eqb_spec c "+");
    [subst; split; [reflexivity|unfold token_shape; simpl; repeat split;
                     try lia; discriminate]|].
  destruct (Ascii.eqb_spec c "-");
    [subst; split; [reflexivity|unfold token_shape; simpl; repeat split;
                     try lia; discriminate]|].
  destruct (Ascii.eqb_spec c "*").
  { subst. destruct (Ascii.eqb_spec (hd NUL s) "*") as [E|E].
    - split; [reflexivity|]. unfold token_shape. simpl.
      repeat split; try lia; try discriminate.
      destruct s as [|c' s']; simpl in *; [discriminate|now subst].
    - split; [reflexivity|]. unfold token_shape. simpl.
      repeat split; try lia. intros _. now destruct s. }
  destruct (Ascii.eqb_spec c "/");
    [subst; split; [reflexivity|unfold token_shape; simpl; repeat split;
                     try lia; discriminate]|].
  destruct (Ascii.eqb_spec c "(");
    [subst; split; [reflexivity|unfold token_shape; simpl; repeat split;
                     try lia; discriminate]|].
  destruct (Ascii.eqb_spec c ")");
    [subst; split; [reflexivity|unfold token_shape; simpl; repeat split;
                     try lia; discriminate]|].
  destruct (Ascii.eqb_spec c NUL).
  { subst. split; [reflexivity|]. unfold token_shape. simpl.
    repeat split. lia. }
  split; [reflexivity|]. unfold token_shape. simpl.
  repeat split; try lia; try assumption; try discriminate.
  unfold is_punctuation.
  repeat match goal with
         | H : c <> ?x |- _ =>
             apply Ascii.eqb_neq in H; rewrite H; clear H
         end.
  reflexivity.
Qed.

Lemma scan_shape s : forall p,
  exists b,
    tok_start (fst (scan s p)) = p + b /\ b <= length s
    /\ forallb is_blank (firstn b s) = true
    /\ token_shape (fst (scan s p)) (snd (scan s p)) (skipn b s).
Proof.
  induction s as [|c s IH]; intros p.
  - exists 0. simpl. unfold token_shape. simpl. repeat split; lia.
  - simpl. destruct (is_blank c) eqn:B.
    + destruct (IH (S p)) as (b & H1 & H2 & H3 & H4).
      exists (S b). simpl. rewrite B, H3. repeat split; try lia. exact H4.
    + destruct (scan_token_shape c s p B) as [H1 H2].
      exists 0. simpl. repeat split; try lia. exact H2.
Qed.

Lemma token_shape_length t q r :
  token_shape t q r ->
  tok_len t <= S (length r) /\
  (tok_type t <> END_OF_FILE -> tok_len t <= length r).
Proof.
  unfold token_shape.
  assert (F : forall x, firstn (tok_len t) r = x -> tok_len t = length x ->
                        tok_len t <= length r).
  { intros x E L. rewrite L at 1. rewrite <- E, length_firstn. lia. }
  destruct (tok_type t) eqn:T; intros H;
    try (destruct H as (_ & H1 & H2 & _); pose proof (F _ H1 H2);
         split; [lia|intros _; assumption]).
  - destruct H as (_ & H1 & _ & N & _).
    assert (tok_len t <= length r)
      by (rewrite H1; destruct r; [congruence|simpl; lia]).
    split; [lia|intros _; assumption].
  - destruct H as (_ & H1 & _). split; [lia|congruence].
Qed.

(** X3: the token [next_token] returns.  Only blanks lie between the
    cursor and the token; the view of the token stays within the string and
    its terminator; the cursor ends just after the token (at an end-of-input
    token it does not pass the end of the line); a number spans the whole
    digit run at its start, an operator or parenthesis its spelling ([**]
    two characters, [*] only when no second [*] follows), an illegal token
    one character that is neither blank, digit, punctuation nor NUL, and an
    end-of-input token stands on a NUL. *)
Theorem next_token_view source p :
  p <= length source ->
  p <= tok_start (fst (Lexer.next_token source p))
  /\ forallb is_blank
       (firstn (tok_start (fst (Lexer.next_token source p)) - p)
          (skipn p source)) = true
  /\ tok_start (fst (Lexer.next_token source p))
       + tok_len (fst (Lexer.next_token source p)) <= S (length source)
  /\ (tok_type (fst (Lexer.next_token source p)) <> END_OF_FILE ->
      tok_start (fst (Lexer.next_token source p))
        + tok_len (fst (Lexer.next_token source p)) <= length source)
  /\ token_shape (fst (Lexer.next_token source p))
       (snd (Lexer.next_token source p))
       (skipn (tok_start (fst (Lexer.next_token source p))) source).
Proof.
  intros P. rewrite next_token_scan.
  destruct (scan_shape (skipn p source) p) as (b & H1 & H2 & H3 & H4).
  rewrite length_skipn in H2. rewrite skipn_skipn in H4.
  rewrite H1. replace (p + b - p) with b by lia.
  replace (b + p) with (p + b) in H4 by lia.
  destruct (token_shape_length _ _ _ H4) as [L1 L2].
  rewrite length_skipn in L1, L2.
  repeat split; try lia; try assumption.
  intros E. specialize (L2 E). lia.
Qed.

Lemma next_token_view_witness :
  token_shape (fst (Lexer.next_token (text " 12 ** 3") 0))
    (snd (Lexer.next_token (text " 12 ** 3") 0))
    (skipn (tok_start (fst (Lexer.next_token (text " 12 ** 3") 0)))
       (text " 12 ** 3")).
Proof.
  apply (next_token_view (text " 12 ** 3") 0). simpl. lia.
Defined.

Lemma scan_blank_end ws p :
  forallb is_blank ws = true ->
  scan ws p = (Lexer.make_simple_token (p + length ws) END_OF_FILE,
               p + length ws).
Proof.
  intros B. rewrite <- (app_nil_r ws) at 1. now rewrite scan_blank.
Qed.

(** X4: at the end of the input [next_token] is idempotent.  When only
    blanks are left, it returns an end-of-input token with the cursor at the
    end of the line, and every further call returns the same token and
    leaves the cursor there. *)
Theorem next_token_end_idempotent source p :
  p <= length source ->
  forallb is_blank (skipn p source) = true ->
  Lexer.next_token source p
  = (Lexer.make_simple_token (length source) END_OF_FILE, length source)
  /\ Lexer.next_token source (length source)
     = (Lexer.make_simple_token (length source) END_OF_FILE, length source).
Proof.
  intros P B. rewrite !next_token_scan, skipn_all.
  split; [|reflexivity].
  rewrite <- (app_nil_r (skipn p source)), scan_blank by exact B.
  rewrite length_skipn. simpl.
  now replace (p + (length source - p)) with (length source) by lia.
Qed.

Lemma next_token_end_idempotent_witness :
  Lexer.next_token (text "1 +  ") 3
  = (Lexer.make_simple_token (length (text "1 +  ")) END_OF_FILE,
     length (text "1 +  "))
  /\ Lexer.next_token (text "1 +  ") (length (text "1 +  "))
     = (Lexer.make_simple_token (length (text "1 +  ")) END_OF_FILE,
        length (text "1 +  ")).
Proof.
  apply (next_token_end_idempotent (text "1 +  ") 3);
    [simpl; lia|reflexivity].
Defined.

(** X5: blanks before a token are insignificant to the lexer: with any
    run of spaces, tabs, carriage returns and line feeds at the cursor,
    [next_token] returns what it returns with the cursor after the run. *)
Theorem next_token_skips_blanks source p ws rest :
  skipn p source = ws ++ rest -> forallb is_blank ws = true ->
  Lexer.next_token source p = Lexer.next_token source (p + length ws).
Proof.
  intros E B. rewrite !next_token_scan, (skipn_app_inv _ _ _ _ _ E), E.
  now apply scan_blank.
Qed.

Lemma next_token_skips_blanks_witness :
  Lexer.next_token (text "1   + 2") 1
  = Lexer.next_token (text "1   + 2") (1 + length (text "   ")).
Proof.
  apply (next_token_skips_blanks (text "1   + 2") 1 (text "   ")
           (text "+ 2")); reflexivity.
Defined.

(** ** The value of a number and the token of the number *)

Section NumberValue.

Variable source : list ascii.
Variable pow : float -> float -> float.
Variables strtod_1 strtod_2 : list ascii -> float.

Lemma hd_skipn (l : list ascii) : forall n, hd NUL (skipn n l) = nth n l NUL.
Proof.
  induction l as [|a l IH]; intros [|n]; simpl; auto.
Qed.

Lemma advance_number st :
  tok_type (token (Parser.next_token source st)) = NUMBER ->
  current_position (Parser.next_token source st)
  = tok_start (token (Parser.next_token source st))
    + length (digit_run
                (skipn (tok_start (token (Parser.next_token source st)))
                   source)).
Proof.
  rewrite advance_scan. simpl.
  destruct (scan_shape (skipn (current_position st) source)
              (current_position st)) as (b & H1 & _ & _ & H4).
  intros T. unfold token_shape in H4. rewrite T in H4.
  destruct H4 as (-> & _ & H & _). rewrite H, H1, skipn_skipn.
  now replace (b + current_position st) with (current_position st + b) by lia.
Qed.

(** Where the two readings of a number differ, the next token is an
    illegal character. *)
Lemma atom_strtod f st :
  Parser.compute_atom source strtod_1 f st
  = Parser.compute_atom source strtod_2 f st
  \/ exists v1 v2 s,
       Parser.compute_atom source strtod_1 f st = Value v1 s
       /\ Parser.compute_atom source strtod_2 f st = Value v2 s
       /\ tok_type (token s) = ILLEGAL_CHARACTER.
Proof.
  unfold Parser.compute_atom.
  set (st1 := Parser.next_token source st).
  destruct (TokenType_eqb (tok_type (token st1)) LEFT_PAREN); [now left|].
  destruct (TokenType_eqb (tok_type (token st1)) END_OF_FILE); [now left|].
  destruct (TokenType_eqb (tok_type (token st1)) NUMBER) eqn:N;
    [|now left].
  apply TokenType_eqb_eq in N. cbn [negb]. unfold Parser.strtod.
  destruct (continues_number _) eqn:C; [|now left].
  right. do 3 eexists. repeat split.
  rewrite advance_state_at, state_at_type.
  apply continues_illegal. unfold st1 in *.
  rewrite advance_number by exact N.
  rewrite Nat.add_comm, <- skipn_skipn, hd_skipn.
  exact C.
Qed.

Lemma loop_at_illegal n f m v1 v2 st :
  tok_type (token st) = ILLEGAL_CHARACTER ->
  Parser.while_loop pow n f m v1 st = Parser.while_loop pow n f m v2 st.
Proof.
  intros I. destruct n as [|n]; [reflexivity|]. simpl. now rewrite I.
Qed.

Lemma loop_ext f g :
  (forall m s, f m s = g m s) ->
  forall n m lhs st,
    Parser.while_loop pow n f m lhs st = Parser.while_loop pow n g m lhs st.
Proof.
  intros E. induction n as [|n IH]; intros m lhs st; [reflexivity|].
  simpl. rewrite E.
  destruct (_ || _ || _)%bool; [reflexivity|].
  destruct (g _ st) as [rhs s|k s|]; try reflexivity.
  destruct (Parser.compute_op pow (token st) lhs rhs s); try reflexivity.
  apply IH.
Qed.

Lemma compute_expr_strtod n : forall m st,
  Parser.compute_expr source pow strtod_1 n m st
  = Parser.compute_expr source pow strtod_2 n m st.
Proof.
  induction n as [|n IH]; intros m st; [reflexivity|].
  rewrite !compute_expr_S.
  rewrite (atom_cong source strtod_1 _
             (Parser.compute_expr source pow strtod_2 n) st)
    by (intros _; apply IH).
  destruct (atom_strtod (Parser.compute_expr source pow strtod_2 n) st)
    as [->|(v1 & v2 & s & -> & -> & I)].
  - destruct (Parser.compute_atom _ _ _ st); try reflexivity.
    now apply loop_ext.
  - rewrite (loop_ext _ _ IH). now apply loop_at_illegal.
Qed.

End NumberValue.

(** X6: what [parse] does never depends on how [strtod] reads a number
    that goes on after its digits (a fraction, an exponent, a hexadecimal
    literal): whenever [strtod] reads past the digit run of the token, the
    next token is an illegal character and the loop of [compute_expr] raises
    "Unknown operator" before the value is used.  Every value [parse]
    returns is built from the values of digit runs alone. *)
Theorem parse_reads_digit_runs source pow strtod_1 strtod_2 :
  Parser.parse source pow strtod_1 = Parser.parse source pow strtod_2.
Proof. apply compute_expr_strtod. Qed.

(** ** Errors in the middle of an expression *)

Section MissingParts.

Variable pow : float -> float -> float.
Variable strtod_continued : list ascii -> float.

Lemma expr_no_atom source m st :
  first_token_type (skipn (current_position st) source) <> NUMBER ->
  first_token_type (skipn (current_position st) source) <> LEFT_PAREN ->
  run_expr source pow strtod_continued m st
  = Error (atom_error (first_token_type (skipn (current_position st) source)))
      (state_at source (current_position st)).
Proof.
  intros N L. rewrite run_expr_eq. unfold Parser.compute_atom.
  rewrite advance_state_at, state_at_type.
  destruct (first_token_type _); try congruence; reflexivity.
Qed.

Lemma loop_no_operand source m v st :
  is_binary (tok_type (token st)) = true ->
  (m <= prec (OperatorMap_at (tok_type (token st))))%Z ->
  first_token_type (skipn (current_position st) source) <> NUMBER ->
  first_token_type (skipn (current_position st) source) <> LEFT_PAREN ->
  run_loop source pow strtod_continued m v st
  = Error (atom_error (first_token_type (skipn (current_position st) source)))
      (state_at source (current_position st)).
Proof.
  intros B M N L. rewrite run_loop_eq. cbv zeta.
  rewrite is_binary_range, B. apply Z.ltb_ge in M. rewrite M. simpl.
  now rewrite expr_no_atom.
Qed.

Lemma binary_prec_range op :
  is_binary op = true ->
  (1 <= prec (OperatorMap_at op) < atom_level)%Z
  /\ (lhs_level op <= atom_level)%Z /\ (rhs_level op <= atom_level)%Z.
Proof. destruct op; try discriminate; cbv; repeat split; discriminate. Qed.

Lemma operator_head_not_digit op ws rest :
  is_binary op = true -> blank ws ->
  isdigit (hd NUL (ws ++ operator_text op ++ rest)) = false.
Proof.
  intros O B. destruct op; try discriminate; simpl;
    now apply blank_head_not_digit.
Qed.

Lemma loop_at_operator source q ws op rest m v :
  skipn q source = ws ++ operator_text op ++ rest -> blank ws ->
  Ascii.eqb (hd NUL rest) "*" = false -> is_binary op = true ->
  (m <= prec (OperatorMap_at op))%Z ->
  first_token_type rest <> NUMBER -> first_token_type rest <> LEFT_PAREN ->
  run_loop source pow strtod_continued m v (state_at source q)
  = Error (atom_error (first_token_type rest))
      (state_at source (q + length ws + length (operator_text op))).
Proof.
  intros E B S O M N L.
  pose proof (skipn_app_inv _ _ _ _ _ E) as E1.
  pose proof (skipn_app_inv _ _ _ _ _ E1) as E2.
  rewrite (state_at_blank _ _ _ _ B E), state_at_scan, E1.
  rewrite scan_operator by assumption. simpl.
  rewrite loop_no_operand; simpl; rewrite ?E2; auto.
Qed.

(** An expression, an operator, and then no operand. *)
Lemma missing_operand k s e :
  phrase k s e ->
  forall source p op ws rest m st,
    skipn p source = s ++ ws ++ operator_text op ++ rest ->
    current_position st = p -> (m <= k)%Z ->
    is_binary op = true -> (m <= prec (OperatorMap_at op))%Z -> blank ws ->
    Ascii.eqb (hd NUL rest) "*" = false ->
    first_token_type rest <> NUMBER -> first_token_type rest <> LEFT_PAREN ->
    run_expr source pow strtod_continued m st
    = Error (atom_error (first_token_type rest))
        (state_at source
           (p + length s + length ws + length (operator_text op))).
Proof.
  assert (Direct : forall k0 s0 e0, phrase k0 s0 e0 ->
    forall source p op ws rest m st,
      skipn p source = s0 ++ ws ++ operator_text op ++ rest ->
      current_position st = p -> (m <= k0)%Z ->
      is_binary op = true -> (m <= prec (OperatorMap_at op))%Z -> blank ws ->
      Ascii.eqb (hd NUL rest) "*" = false ->
      first_token_type rest <> NUMBER -> first_token_type rest <> LEFT_PAREN ->
      follows k0 (ws ++ operator_text op ++ rest) ->
      run_expr source pow strtod_continued m st
      = Error (atom_error (first_token_type rest))
          (state_at source
             (p + length s0 + length ws + length (operator_text op)))).
  { intros k0 s0 e0 H source p op ws rest m st E P M O Mo B S N L F.
    rewrite (climb pow strtod_continued k0 s0 e0 H source p _ m st E P M F).
    apply loop_at_operator; auto. now apply skipn_app_inv. }
  induction 1 as [ws0 ds B0 N0 D0|ws0 s ws' e B0 B' Hs IH
                 |o l r el er wso O Hl IHl Bo Hr IHr|k s e Hs IH];
    intros source p op ws rest m st E P M Op Mo B S N L.
  - apply (Direct atom_level (ws0 ++ ds) (Num ds)); auto;
      [now constructor|].
    split; [now apply operator_head_not_digit|].
    rewrite first_token_type_blank, first_token_type_operator by assumption.
    intros _. left. now apply binary_prec_range.
  - apply (Direct atom_level (ws0 ++ "("%char :: s ++ ws' ++ [")"%char]) e);
      auto; [now constructor|].
    split; [now apply operator_head_not_digit|].
    rewrite first_token_type_blank, first_token_type_operator by assumption.
    intros _. left. now apply binary_prec_range.
  - destruct (Z_lt_ge_dec (prec (OperatorMap_at op)) (rhs_level o)) as [Lt|Ge].
    + assert (F : follows (prec (OperatorMap_at o))
                    (ws ++ operator_text op ++ rest)).
      { split; [now apply operator_head_not_digit|].
        rewrite first_token_type_blank, first_token_type_operator
          by assumption.
        intros _. unfold rhs_level in Lt.
        destruct (assoc (OperatorMap_at o)) eqn:A; [|left; lia].
        destruct (Z.eq_dec (prec (OperatorMap_at op))
                    (prec (OperatorMap_at o))) as [Q|Q]; [|left; lia].
        right. split; [exact Q|].
        now rewrite (OperatorMap_uniform _ _ Op O Q). }
      apply (Direct (prec (OperatorMap_at o))
               (l ++ wso ++ operator_text o ++ r) (Bin o el er)); auto.
      now constructor.
    + destruct (phrase_head _ _ _ Hr) as (c & r' & Er & Star).
      assert (Star' : Ascii.eqb
                        (hd NUL (r ++ ws ++ operator_text op ++ rest)) "*"
                      = false) by (subst r; exact Star).
      assert (E0 : skipn p source
                   = l ++ wso ++ operator_text o ++ r ++ ws
                       ++ operator_text op ++ rest).
      { rewrite E. repeat rewrite <- app_assoc. reflexivity. }
      pose proof (skipn_app_inv _ _ _ _ _ E0) as E1.
      pose proof (skipn_app_inv _ _ _ _ _ E1) as E2.
      pose proof (skipn_app_inv _ _ _ _ _ E2) as E3.
      rewrite (climb pow strtod_continued _ l el Hl source p _ m st E0 P).
      2:{ pose proof (level_le_lhs o). lia. }
      2:{ now apply follows_operator. }
      rewrite (state_at_blank _ _ _ _ Bo E1), state_at_scan, E2.
      rewrite scan_operator by assumption. simpl.
      rewrite run_loop_eq. cbv zeta. cbn [token tok_type].
      rewrite is_binary_range, O.
      replace ((prec (OperatorMap_at o) <? m)%Z) with false
        by (symmetry; apply Z.ltb_ge; lia).
      cbn [negb orb].
      rewrite (IHr source
                 (p + length l + length wso + length (operator_text o))
                 op ws rest (rhs_level o));
        auto using Z.le_refl; [|lia].
      do 2 f_equal. rewrite !length_app. lia.
  - apply IH; auto. lia.
Qed.

End MissingParts.

(** X7: an operator without its right operand.  For every valid
    expression followed by a binary operator and then by text whose first
    token is neither a number nor a left parenthesis, [parse] raises an
    error at that token: "Unexpected end of expression" when it is the end
    of the input, "Unexpected character" otherwise.  (A [*] right after the
    operator is excluded: it would make [*] a [**].) *)
Theorem operand_missing pow strtod_continued s e ws op rest :
  phrase 1 s e -> is_binary op = true -> blank ws ->
  Ascii.eqb (hd NUL rest) "*" = false ->
  first_token_type rest <> NUMBER -> first_token_type rest <> LEFT_PAREN ->
  Parser.parse (s ++ ws ++ operator_text op ++ rest) pow strtod_continued
  = Error (atom_error (first_token_type rest))
      (state_at (s ++ ws ++ operator_text op ++ rest)
         (length s + length ws + length (operator_text op))).
Proof.
  intros H O B S N L. rewrite parse_run_expr.
  apply (missing_operand pow strtod_continued 1 s e H _ 0 op ws rest 1%Z
           Parser.initial); auto; try lia.
  now apply binary_prec_range.
Qed.

Lemma operand_missing_witness :
  Parser.parse (text "2 * 3" ++ text " " ++ operator_text ADD ++ text " )")
    sample_pow sample_strtod_continued
  = Error (atom_error (first_token_type (text " )")))
      (state_at
         (text "2 * 3" ++ text " " ++ operator_text ADD ++ text " )")
         (length (text "2 * 3") + length (text " ")
          + length (operator_text ADD))).
Proof.
  apply (operand_missing sample_pow sample_strtod_continued (text "2 * 3")
           (Bin MULTIPLY (Num (text "2")) (Num (text "3"))));
    try reflexivity; try discriminate.
  apply (phrase_weaken_le 1 2); [lia|].
  apply (phrase_binary MULTIPLY (text "2") (text " 3") _ _ (text " "));
    [reflexivity| |reflexivity|].
  - apply (phrase_literal _ []); reflexivity.
  - apply (phrase_literal _ (text " ")); reflexivity.
Defined.

(** X9: a valid expression followed by an illegal character is rejected:
    [parse] raises "Unknown operator" at the first token of the text that
    follows, when that token is an illegal character. *)
Theorem illegal_after_expression pow strtod_continued s e rest :
  phrase 1 s e -> isdigit (hd NUL rest) = false ->
  first_token_type rest = ILLEGAL_CHARACTER ->
  Parser.parse (s ++ rest) pow strtod_continued
  = Error UnknownOperator (state_at (s ++ rest) (length s)).
Proof.
  intros H D I. rewrite parse_run_expr.
  rewrite (climb pow strtod_continued 1 s e H (s ++ rest) 0 rest 1%Z
             Parser.initial eq_refl eq_refl (Z.le_refl _)).
  - apply loop_illegal. simpl.
    now rewrite state_at_type, skipn_app, Nat.sub_diag, skipn_all.
  - split; [exact D|]. rewrite I. discriminate.
Qed.

Lemma illegal_after_expression_witness :
  Parser.parse (text "(1 + 2)" ++ text " = 3") sample_pow
    sample_strtod_continued
  = Error UnknownOperator
      (state_at (text "(1 + 2)" ++ text " = 3") (length (text "(1 + 2)"))).
Proof.
  apply (illegal_after_expression sample_pow sample_strtod_continued
           (text "(1 + 2)") (Bin ADD (Num (text "1")) (Num (text "2"))));
    try reflexivity.
  apply (phrase_weaken_le 1 atom_level); [cbv; discriminate|].
  apply (phrase_paren [] (text "1 + 2") []); try reflexivity.
  apply (phrase_binary ADD (text "1") (text " 2") _ _ (text " "));
    [reflexivity| |reflexivity|].
  - apply (phrase_literal _ []); reflexivity.
  - apply (phrase_literal _ (text " ")); reflexivity.
Defined.

(** X10: how two operators in a row group.  For atoms [a], [b], [c] and
    binary operators [o1], [o2], the value of [a o1 b o2 c] is
    [a o1 (b o2 c)] when the precedence of [o2] reaches the minimum
    precedence [compute_expr] passes for the right operand of [o1] (higher
    precedence, or the same one and right-associative), and [(a o1 b) o2 c]
    otherwise. *)
Theorem two_operators_group pow strtod_continued o1 o2 a b c ea eb ec
    ws1 ws2 trailing :
  is_binary o1 = true -> is_binary o2 = true ->
  phrase atom_level a ea -> phrase atom_level b eb ->
  phrase atom_level c ec ->
  blank ws1 -> blank ws2 -> blank trailing ->
  result_value
    (Parser.parse
       (a ++ ws1 ++ operator_text o1 ++ b ++ ws2 ++ operator_text o2 ++ c
          ++ trailing) pow strtod_continued)
  = Some (if (rhs_level o1 <=? prec (OperatorMap_at o2))%Z
          then binary_value pow o1 (eval pow ea)
                 (binary_value pow o2 (eval pow eb) (eval pow ec))
          else binary_value pow o2
                 (binary_value pow o1 (eval pow ea) (eval pow eb))
                 (eval pow ec)).
Proof.
  intros O1 O2 Ha Hb Hc B1 B2 B3.
  destruct (binary_prec_range _ O1) as (P1 & L1 & R1).
  destruct (binary_prec_range _ O2) as (P2 & L2 & R2).
  destruct (Z.leb_spec (rhs_level o1) (prec (OperatorMap_at o2))) as [G|G].
  - assert (H : phrase 1
                  (a ++ ws1 ++ operator_text o1
                     ++ (b ++ ws2 ++ operator_text o2 ++ c))
                  (Bin o1 ea (Bin o2 eb ec))).
    { apply (phrase_weaken_le 1 (prec (OperatorMap_at o1))); [lia|].
      apply phrase_binary; auto.
      - now apply (phrase_weaken_le _ atom_level).
      - apply (phrase_weaken_le _ (prec (OperatorMap_at o2))); [exact G|].
        apply phrase_binary; auto;
          now apply (phrase_weaken_le _ atom_level). }
    pose proof (parse_phrase_leftover pow strtod_continued _ _ trailing H
                  (blank_leftover _ B3)) as E.
    repeat rewrite <- app_assoc in E. now rewrite E.
  - assert (H : phrase 1
                  ((a ++ ws1 ++ operator_text o1 ++ b)
                     ++ ws2 ++ operator_text o2 ++ c)
                  (Bin o2 (Bin o1 ea eb) ec)).
    { apply (phrase_weaken_le 1 (prec (OperatorMap_at o2))); [lia|].
      apply phrase_binary; auto.
      - apply (phrase_weaken_le _ (prec (OperatorMap_at o1))).
        + clear - O1 O2 G. destruct o1, o2; try discriminate;
            cbv in G |- *; congruence.
        + apply phrase_binary; auto;
            now apply (phrase_weaken_le _ atom_level).
      - now apply (phrase_weaken_le _ atom_level). }
    pose proof (parse_phrase_leftover pow strtod_continued _ _ trailing H
                  (blank_leftover _ B3)) as E.
    repeat rewrite <- app_assoc in E. now rewrite E.
Qed.

Lemma two_operators_group_witness :
  result_value
    (Parser.parse
       (text "8" ++ text " " ++ operator_text DIVIDE ++ text " 4"
          ++ text " " ++ operator_text MULTIPLY ++ text " 2" ++ [])
       sample_pow sample_strtod_continued)
  = Some (if (rhs_level DIVIDE <=? prec (OperatorMap_at MULTIPLY))%Z
          then binary_value sample_pow DIVIDE
                 (eval sample_pow (Num (text "8")))
                 (binary_value sample_pow MULTIPLY
                    (eval sample_pow (Num (text "4")))
                    (eval sample_pow (Num (text "2"))))
          else binary_value sample_pow MULTIPLY
                 (binary_value sample_pow DIVIDE
                    (eval sample_pow (Num (text "8")))
                    (eval sample_pow (Num (text "4"))))
                 (eval sample_pow (Num (text "2")))).
Proof.
  apply (two_operators_group sample_pow sample_strtod_continued DIVIDE
           MULTIPLY (text "8") (text " 4") (text " 2"));
    try reflexivity.
  - apply (phrase_literal _ []); reflexivity.
  - apply (phrase_literal _ (text " ")); reflexivity.
  - apply (phrase_literal _ (text " ")); reflexivity.
Defined.

(** ** The parser reads the text from the cursor on *)

Lemma scan_token_shift c s p a :
  scan_token c s (a + p)
  = (shift_token a (fst (scan_token c s p)), a + snd (scan_token c s p)).
Proof.
  unfold scan_token, shift_token, Lexer.make_simple_token.
  repeat match goal with
         | |- context [if ?x then _ else _] => destruct x
         end; simpl; f_equal; lia.
Qed.

Lemma scan_shift s a : forall p,
  scan s (a + p) = (shift_token a (fst (scan s p)), a + snd (scan s p)).
Proof.
  induction s as [|c s IH]; intros p; simpl.
  - unfold shift_token. simpl. reflexivity.
  - destruct (is_blank c).
    + rewrite <- IH. f_equal. lia.
    + apply scan_token_shift.
Qed.

Section Locality.

Variable prefix source : list ascii.
Variable pow : float -> float -> float.
Variable strtod_continued : list ascii -> float.

Lemma skipn_prefix n : skipn (length prefix + n) (prefix ++ source) = skipn n source.
Proof.
  rewrite skipn_app, skipn_all2 by lia.
  now replace (length prefix + n - length prefix) with n by lia.
Qed.

Lemma advance_shift st :
  Parser.next_token (prefix ++ source) (shift_state (length prefix) st)
  = shift_state (length prefix) (Parser.next_token source st).
Proof.
  rewrite !advance_scan. cbn [shift_state current_position].
  rewrite skipn_prefix, scan_shift. reflexivity.
Qed.

Lemma shift_state_type a st :
  tok_type (token (shift_state a st)) = tok_type (token st).
Proof. reflexivity. Qed.

Lemma shift_state_start a st :
  tok_start (token (shift_state a st)) = a + tok_start (token st).
Proof. reflexivity. Qed.

Lemma atom_shift f g st :
  (forall m s, g m (shift_state (length prefix) s)
               = shift_result (length prefix) (f m s)) ->
  Parser.compute_atom (prefix ++ source) strtod_continued g
    (shift_state (length prefix) st)
  = shift_result (length prefix)
      (Parser.compute_atom source strtod_continued f st).
Proof.
  intros H. unfold Parser.compute_atom. rewrite advance_shift.
  set (st1 := Parser.next_token source st).
  rewrite !shift_state_type, shift_state_start, skipn_prefix.
  destruct (TokenType_eqb (tok_type (token st1)) LEFT_PAREN).
  - rewrite H. destruct (f 1%Z st1) as [v s|k s|]; try reflexivity.
    cbn [shift_result]. rewrite shift_state_type.
    destruct (negb _); [reflexivity|].
    now rewrite advance_shift.
  - destruct (TokenType_eqb _ END_OF_FILE); [reflexivity|].
    destruct (negb _); [reflexivity|].
    now rewrite advance_shift.
Qed.

Lemma compute_op_shift t lhs rhs st :
  Parser.compute_op pow (shift_token (length prefix) t) lhs rhs
    (shift_state (length prefix) st)
  = shift_result (length prefix) (Parser.compute_op pow t lhs rhs st).
Proof.
  unfold Parser.compute_op. simpl. destruct (tok_type t); reflexivity.
Qed.

Lemma loop_shift f g :
  (forall m s, g m (shift_state (length prefix) s)
               = shift_result (length prefix) (f m s)) ->
  forall n m lhs st,
    Parser.while_loop pow n g m lhs (shift_state (length prefix) st)
    = shift_result (length prefix) (Parser.while_loop pow n f m lhs st).
Proof.
  intros H. induction n as [|n IH]; intros m lhs st; [reflexivity|].
  cbn [Parser.while_loop]. cbv zeta. rewrite !shift_state_type.
  destruct (_ || _ || _)%bool.
  - destruct (TokenType_eqb _ _); reflexivity.
  - rewrite H. destruct (f _ st) as [rhs s|k s|]; try reflexivity.
    cbn [shift_result].
    change (token (shift_state (length prefix) st))
      with (shift_token (length prefix) (token st)).
    rewrite compute_op_shift.
    destruct (Parser.compute_op pow (token st) lhs rhs s); try reflexivity.
    cbn [shift_result]. apply IH.
Qed.

Lemma compute_expr_shift n : forall m st,
  Parser.compute_expr (prefix ++ source) pow strtod_continued n m
    (shift_state (length prefix) st)
  = shift_result (length prefix)
      (Parser.compute_expr source pow strtod_continued n m st).
Proof.
  induction n as [|n IH]; intros m st; [reflexivity|].
  rewrite !compute_expr_S.
  rewrite (atom_shift _ _ st IH).
  destruct (Parser.compute_atom source strtod_continued _ st);
    try reflexivity.
  cbn [shift_result]. now apply loop_shift.
Qed.

End Locality.

(** ** Blanks at the end of the line *)

Lemma digit_run_app_blank r ws :
  blank ws -> digit_run (r ++ ws) = digit_run r.
Proof.
  intros B. induction r as [|c r IH]; simpl.
  - destruct ws as [|w ws]; [reflexivity|]. simpl.
    unfold blank in B. simpl in B. apply andb_true_iff in B.
    destruct B as [B _]. now rewrite (is_blank_not_digit _ B).
  - now rewrite IH.
Qed.

Lemma hd_app_blank r ws :
  blank ws ->
  Ascii.eqb (hd NUL (r ++ ws)) "*" = Ascii.eqb (hd NUL r) "*".
Proof.
  intros B. destruct r as [|c r]; [|reflexivity].
  destruct ws as [|w ws]; [reflexivity|]. simpl.
  unfold blank in B. simpl in B. apply andb_true_iff in B.
  destruct B as [B _].
  destruct (Ascii.eqb_spec w "*"); [subst; discriminate|reflexivity].
Qed.

Lemma scan_token_app_blank c r ws p :
  blank ws -> scan_token c (r ++ ws) p = scan_token c r p.
Proof.
  intros B. unfold scan_token.
  now rewrite digit_run_app_blank, hd_app_blank.
Qed.

Lemma scan_app_blank r ws : forall p,
  blank ws ->
  scan (r ++ ws) p = scan r p \/ forallb is_blank r = true.
Proof.
  induction r as [|c r IH]; intros p B; [now right|]. simpl.
  destruct (is_blank c) eqn:C.
  - destruct (IH (S p) B) as [H|H]; [now left|now right].
  - left. now apply scan_token_app_blank.
Qed.

Lemma strtod_app_blank (v : float) r ws :
  blank ws ->
  Parser.strtod (fun _ => v) (r ++ ws) = Parser.strtod (fun _ => v) r.
Proof.
  intros B. unfold Parser.strtod. rewrite digit_run_app_blank by assumption.
  assert (L : length (digit_run r) <= length r).
  { clear. induction r as [|a r IH]; simpl; [lia|].
    destruct (isdigit a); simpl; lia. }
  destruct (Nat.eq_dec (length (digit_run r)) (length r)) as [E|E].
  - rewrite E, app_nth2, Nat.sub_diag, (nth_overflow r) by lia.
    destruct ws as [|w ws]; [reflexivity|]. simpl.
    unfold blank in B. simpl in B. apply andb_true_iff in B.
    destruct B as [B _]. unfold is_blank in B.
    repeat (apply orb_true_iff in B; destruct B as [B|B]);
      apply Ascii.eqb_eq in B; subst w; reflexivity.
  - rewrite app_nth1 by lia. reflexivity.
Qed.

Section TrailingBlanks.

Variable source ws : list ascii.
Variable pow : float -> float -> float.
Variable v0 : float.
Hypothesis Bws : blank ws.

Abbreviation related := (same_or_at_end source ws).
Abbreviation agree := (same_outcome source ws).
Abbreviation advance1 := (Parser.next_token (source ++ ws)).
Abbreviation advance2 := (Parser.next_token source).

Lemma related_type st1 st2 :
  related st1 st2 -> tok_type (token st1) = tok_type (token st2).
Proof. intros [(-> & _)|(-> & -> & _)]; reflexivity. Qed.

Lemma advance_related st1 st2 :
  related st1 st2 -> related (advance1 st1) (advance2 st2).
Proof.
  intros [(-> & P & _)|(_ & _ & P1 & P2)]; rewrite !advance_scan.
  - rewrite skipn_app.
    replace (current_position st2 - length source) with 0 by lia.
    cbn [skipn].
    pose proof (scan_bounds (skipn (current_position st2) source)
                  (current_position st2)) as Bd.
    rewrite length_skipn in Bd.
    destruct (scan_app_blank (skipn (current_position st2) source) ws
                (current_position st2) Bws) as [E|E].
    + rewrite E. left. destruct (scan _ _) as [t q]. simpl in *.
      repeat split; lia.
    + right.
      rewrite (scan_blank_end (skipn (current_position st2) source) _ E).
      rewrite (scan_blank_end (skipn (current_position st2) source ++ ws)).
      2:{ rewrite forallb_app, E. exact Bws. }
      rewrite length_app, length_skipn. simpl. repeat split; lia.
  - rewrite P1, P2, skipn_all.
    rewrite skipn_all2 by (rewrite length_app; lia).
    right. simpl. repeat split; lia.
Qed.

Lemma atom_related f1 f2 st1 st2 :
  (forall m a b, related a b -> agree (f1 m a) (f2 m b)) ->
  related st1 st2 ->
  agree (Parser.compute_atom (source ++ ws) (fun _ => v0) f1 st1)
        (Parser.compute_atom source (fun _ => v0) f2 st2).
Proof.
  intros Hf R. unfold Parser.compute_atom.
  pose proof (advance_related _ _ R) as A.
  set (a1 := advance1 st1) in *. set (a2 := advance2 st2) in *.
  rewrite (related_type _ _ A).
  destruct (TokenType_eqb (tok_type (token a2)) LEFT_PAREN).
  - specialize (Hf 1%Z _ _ A).
    destruct (f1 1%Z a1) as [v1 s1|k1 s1|], (f2 1%Z a2) as [v2 s2|k2 s2|];
      simpl in Hf; try contradiction; try exact Hf.
    destruct Hf as [-> Rs]. rewrite (related_type _ _ Rs).
    destruct (negb _); simpl; split; auto.
    now apply advance_related.
  - destruct (TokenType_eqb (tok_type (token a2)) END_OF_FILE) eqn:E;
      [simpl; auto|].
    destruct (negb (TokenType_eqb (tok_type (token a2)) NUMBER)) eqn:N;
      [simpl; auto|].
    simpl. split; [|now apply advance_related].
    destruct A as [(-> & _ & T)|(_ & T & _)].
    + rewrite skipn_app.
      replace (tok_start (token a2) - length source) with 0 by lia.
      cbn [skipn]. now apply strtod_app_blank.
    + rewrite T in E. discriminate.
Qed.

Lemma compute_op_related t1 t2 lhs rhs st1 st2 :
  tok_type t1 = tok_type t2 -> related st1 st2 ->
  agree (Parser.compute_op pow t1 lhs rhs st1)
        (Parser.compute_op pow t2 lhs rhs st2).
Proof.
  intros T R. unfold Parser.compute_op. rewrite T.
  destruct (tok_type t2); simpl; auto.
Qed.

Lemma loop_related f1 f2 :
  (forall m a b, related a b -> agree (f1 m a) (f2 m b)) ->
  forall n m lhs st1 st2, related st1 st2 ->
    agree (Parser.while_loop pow n f1 m lhs st1)
          (Parser.while_loop pow n f2 m lhs st2).
Proof.
  intros Hf. induction n as [|n IH]; intros m lhs st1 st2 R; [exact I|].
  cbn [Parser.while_loop]. cbv zeta. rewrite (related_type _ _ R).
  destruct (_ || _ || _)%bool.
  - destruct (TokenType_eqb _ _); simpl; auto.
  - match goal with
    | |- context [f2 ?m' st2] => specialize (Hf m' _ _ R)
    end.
    destruct (f1 _ st1) as [v1 s1|k1 s1|], (f2 _ st2) as [v2 s2|k2 s2|];
      simpl in Hf; try contradiction; try exact Hf.
    destruct Hf as [-> Rs].
    pose proof (compute_op_related (token st1) (token st2) lhs v2 s1 s2
                  (related_type _ _ R) Rs) as O.
    destruct (Parser.compute_op pow (token st1) lhs v2 s1) as [w1 u1|k1 u1|],
             (Parser.compute_op pow (token st2) lhs v2 s2) as [w2 u2|k2 u2|];
      simpl in O; try contradiction; try exact O.
    destruct O as [-> Ru]. now apply IH.
Qed.

Lemma compute_expr_related n : forall m st1 st2,
  related st1 st2 ->
  agree (Parser.compute_expr (source ++ ws) pow (fun _ => v0) n m st1)
        (Parser.compute_expr source pow (fun _ => v0) n m st2).
Proof.
  induction n as [|n IH]; intros m st1 st2 R; [exact I|].
  rewrite !compute_expr_S.
  pose proof (atom_related _ _ _ _ IH R) as A.
  destruct (Parser.compute_atom (source ++ ws) _ _ st1) as [v1 s1|k1 s1|],
           (Parser.compute_atom source _ _ st2) as [v2 s2|k2 s2|];
    simpl in A; try contradiction; try exact A.
  destruct A as [-> Rs]. now apply loop_related.
Qed.

End TrailingBlanks.

Lemma compute_expr_same_advance source pow strtod_continued n m st st' :
  Parser.next_token source st = Parser.next_token source st' ->
  Parser.compute_expr source pow strtod_continued n m st
  = Parser.compute_expr source pow strtod_continued n m st'.
Proof.
  intros E. destruct n as [|n]; [reflexivity|].
  rewrite !compute_expr_S. unfold Parser.compute_atom. now rewrite E.
Qed.

Lemma parse_any_fuel source pow strtod_continued n :
  length source < n ->
  Parser.compute_expr source pow strtod_continued n 1 Parser.initial
  = Parser.parse source pow strtod_continued.
Proof.
  intros H. rewrite parse_run_expr. apply run_expr_fuel.
  unfold remaining. simpl. lia.
Qed.

Lemma leading_blanks source pow strtod_continued ws :
  blank ws ->
  Parser.parse (ws ++ source) pow strtod_continued
  = shift_result (length ws) (Parser.parse source pow strtod_continued).
Proof.
  intros B. unfold Parser.parse at 1.
  rewrite (compute_expr_same_advance _ _ _ _ _ _
             (shift_state (length ws) Parser.initial)).
  - rewrite compute_expr_shift, parse_any_fuel; [reflexivity|].
    rewrite length_app. lia.
  - rewrite !advance_state_at. simpl.
    rewrite (state_at_blank (ws ++ source) 0 ws source B eq_refl).
    f_equal. lia.
Qed.

Lemma shift_result_value a r :
  result_value (shift_result a r) = result_value r
  /\ raised (shift_result a r) = raised r.
Proof. destruct r; split; reflexivity. Qed.

Lemma trailing_blanks source pow strtod_continued ws :
  blank ws ->
  same_outcome source ws
    (Parser.parse (source ++ ws) pow strtod_continued)
    (Parser.parse source pow strtod_continued).
Proof.
  intros B.
  rewrite <- (parse_any_fuel source pow strtod_continued
                (S (length (source ++ ws))))
    by (rewrite length_app; lia).
  unfold Parser.parse.
  rewrite (compute_expr_strtod (source ++ ws) pow strtod_continued
             (fun _ => 0%float)).
  rewrite (compute_expr_strtod source pow strtod_continued
             (fun _ => 0%float)).
  apply compute_expr_related; [exact B|].
  left. simpl. repeat split; lia.
Qed.

Lemma same_outcome_value source ws r1 r2 :
  same_outcome source ws r1 r2 ->
  result_value r1 = result_value r2 /\ raised r1 = raised r2.
Proof.
  destruct r1, r2; simpl; try contradiction; intros H.
  - destruct H as [-> _]. split; reflexivity.
  - destruct H as [-> _]. split; reflexivity.
  - split; reflexivity.
Qed.

(** X11: the parser reads the text from the cursor on, and nothing
    before it: on a line with any characters put in front, started with the
    cursor after them, [compute_expr] returns the same value or raises the
    same error, with every position moved by their number. *)
Theorem compute_expr_reads_from_cursor prefix source pow strtod_continued
    n m st :
  Parser.compute_expr (prefix ++ source) pow strtod_continued n m
    (shift_state (length prefix) st)
  = shift_result (length prefix)
      (Parser.compute_expr source pow strtod_continued n m st).
Proof. apply compute_expr_shift. Qed.

(** X12: blanks at the start of the line only move positions: [parse]
    returns the same value, or raises the same kind of error at the same
    token, found further right by the number of blanks. *)
Theorem leading_blanks_move_positions source pow strtod_continued ws :
  blank ws ->
  Parser.parse (ws ++ source) pow strtod_continued
  = shift_result (length ws) (Parser.parse source pow strtod_continued).
Proof. apply leading_blanks. Qed.

Lemma leading_blanks_move_positions_witness :
  Parser.parse (text "   " ++ text "1 + @") sample_pow
    sample_strtod_continued
  = shift_result (length (text "   "))
      (Parser.parse (text "1 + @") sample_pow sample_strtod_continued).
Proof.
  apply (leading_blanks_move_positions (text "1 + @") sample_pow
           sample_strtod_continued (text "   ")).
  reflexivity.
Defined.

(** X13: blanks around the line are insignificant, whatever the line is:
    with spaces, tabs, carriage returns or line feeds before and after it,
    [parse] returns the same value or raises the same kind of error as on
    the line itself.  In particular a carriage return left at the end of the
    line changes neither. *)
Theorem surrounding_blanks_insignificant source pow strtod_continued
    ws1 ws2 :
  blank ws1 -> blank ws2 ->
  result_value (Parser.parse (ws1 ++ source ++ ws2) pow strtod_continued)
  = result_value (Parser.parse source pow strtod_continued)
  /\ raised (Parser.parse (ws1 ++ source ++ ws2) pow strtod_continued)
     = raised (Parser.parse source pow strtod_continued).
Proof.
  intros B1 B2. rewrite leading_blanks by exact B1.
  destruct (shift_result_value (length ws1)
              (Parser.parse (source ++ ws2) pow strtod_continued))
    as [-> ->].
  apply (same_outcome_value source ws2). now apply trailing_blanks.
Qed.

Lemma surrounding_blanks_insignificant_witness :
  result_value (Parser.parse (text " " ++ text "2 * (3 + 4)" ++ [CR])
                  sample_pow sample_strtod_continued)
  = result_value (Parser.parse (text "2 * (3 + 4)") sample_pow
                    sample_strtod_continued)
  /\ raised (Parser.parse (text " " ++ text "2 * (3 + 4)" ++ [CR])
               sample_pow sample_strtod_continued)
     = raised (Parser.parse (text "2 * (3 + 4)") sample_pow
                 sample_strtod_continued).
Proof.
  apply (surrounding_blanks_insignificant (text "2 * (3 + 4)") sample_pow
           sample_strtod_continued (text " ") [CR]); reflexivity.
Defined.

(** ** The error location when the source holds a line feed *)

Section LineFeed.

Variable source : list ascii.

Lemma no_line_feed_between i n :
  forallb (fun c => negb (Ascii.eqb c LF))
    (firstn (n - i) (skipn (S i) source)) = true ->
  forall j, i < j <= n -> Ascii.eqb (nth j source NUL) LF = false.
Proof.
  intros F j J.
  destruct (Nat.lt_ge_cases j (length source)) as [L|L];
    [|now rewrite nth_overflow].
  rewrite forallb_forall in F.
  apply negb_true_iff, F.
  replace j with (S i + (j - S i)) by lia.
  rewrite <- nth_skipn.
  replace (nth (j - S i) (skipn (S i) source) NUL)
    with (nth (j - S i) (firstn (n - i) (skipn (S i) source)) NUL).
  - apply nth_In. rewrite length_firstn, length_skipn. lia.
  - rewrite nth_firstn.
    destruct (Nat.ltb_spec (j - S i) (n - i)); [reflexivity|lia].
Qed.

Lemma start_of_line_loop_line_feed i : forall n,
  i <= n -> n <= length source ->
  Ascii.eqb (nth i source NUL) LF = true ->
  (forall j, i < j <= n -> Ascii.eqb (nth j source NUL) LF = false) ->
  Parser.start_of_line_loop source (S n) (Z.of_nat n) = Some (Z.of_nat i).
Proof.
  induction n as [|n IH]; intros I N E F;
    cbn [Parser.start_of_line_loop]; rewrite deref_in by assumption.
  - replace i with 0 in * by lia. now rewrite E.
  - destruct (Nat.eq_dec i (S n)) as [->|D]; [now rewrite E|].
    rewrite F by lia.
    replace ((0 <? Z.of_nat (S n))%Z) with true
      by (symmetry; apply Z.ltb_lt; lia).
    cbn [negb andb].
    replace (Z.of_nat (S n) - 1)%Z with (Z.of_nat n) by lia.
    apply IH; try lia; auto. intros j J. apply F. lia.
Qed.

End LineFeed.

(** X14: the error location on a source with a line feed before the
    offending token.  The backward scan stops on the line feed itself and
    the forward scan stops there at once, so the location shows no source
    text: it is an empty line, then as many spaces as the distance from that
    line feed to the token (one more than the token's column in its line),
    then the caret.  (The character before the line feed is not a carriage
    return.) *)
Theorem error_location_after_line_feed source st i :
  1 <= i -> i < tok_start (token st) ->
  tok_start (token st) <= length source ->
  (Z.of_nat (length source) < 2 ^ 64)%Z ->
  Ascii.eqb (nth i source NUL) LF = true ->
  forallb (fun c => negb (Ascii.eqb c LF))
    (firstn (tok_start (token st) - i) (skipn (S i) source)) = true ->
  Ascii.eqb (nth (i - 1) source NUL) CR = false ->
  Parser.show_error_location source st
  = Some ([LF] ++ repeat SPACE (tok_start (token st) - i) ++ ["^"%char]).
Proof.
  intros I1 I2 T L E F C. unfold Parser.show_error_location.
  rewrite (start_of_line_loop_line_feed source i) by
    (auto; try lia; now apply no_line_feed_between).
  rewrite deref_in by lia.
  apply Ascii.eqb_eq in E. rewrite E.
  change (Ascii.eqb LF NUL) with false. cbv iota.
  cbn [Parser.end_of_line_loop]. rewrite deref_in by lia. rewrite E.
  change (negb (Ascii.eqb LF LF) && negb (Ascii.eqb LF NUL)) with false.
  cbv iota.
  replace (Z.of_nat i - 1)%Z with (Z.of_nat (i - 1)) by lia.
  rewrite deref_in by lia. rewrite C.
  rewrite Z.sub_diag. change (Z.to_nat (size_t 0)) with 0.
  cbn [Parser.copy_loop].
  rewrite size_t_small by lia.
  now replace (Z.to_nat (Z.of_nat (tok_start (token st)) - Z.of_nat i))
    with (tok_start (token st) - i) by lia.
Qed.

Lemma error_location_after_line_feed_witness :
  Parser.show_error_location (text "1 +" ++ LF :: text "  @")
    {| current_position := 7;
       token := {| tok_start := 6; tok_len := 1;
                   tok_type := ILLEGAL_CHARACTER |} |}
  = Some ([LF] ++ repeat SPACE (6 - 3) ++ ["^"%char]).
Proof.
  apply (error_location_after_line_feed (text "1 +" ++ LF :: text "  @")
           {| current_position := 7;
              token := {| tok_start := 6; tok_len := 1;
                          tok_type := ILLEGAL_CHARACTER |} |} 3);
    try reflexivity; simpl; lia.
Defined.

(** X15: when the source starts with a line feed and no other line feed
    lies between it and the offending token, the error location reads the
    character before the start of the string: the scans meet on the line
    feed at offset 0 and the test for a carriage return looks at offset
    -1. *)
Theorem error_location_reads_before_start source st :
  0 < tok_start (token st) -> tok_start (token st) <= length source ->
  Ascii.eqb (nth 0 source NUL) LF = true ->
  forallb (fun c => negb (Ascii.eqb c LF))
    (firstn (tok_start (token st)) (skipn 1 source)) = true ->
  Parser.deref source (-1) = None
  /\ Parser.show_error_location source st = None.
Proof.
  intros T0 T E F. split; [reflexivity|].
  unfold Parser.show_error_location.
  rewrite (start_of_line_loop_line_feed source 0) by
    (auto; try lia; apply no_line_feed_between;
     now rewrite Nat.sub_0_r).
  rewrite deref_0. apply Ascii.eqb_eq in E. rewrite E.
  change (Ascii.eqb LF NUL) with false. cbv iota.
  cbn [Parser.end_of_line_loop]. rewrite deref_0, E.
  reflexivity.
Qed.

Lemma error_location_reads_before_start_witness :
  Parser.deref (LF :: text "@") (-1) = None
  /\ Parser.show_error_location (LF :: text "@")
       {| current_position := 2;
          token := {| tok_start := 1; tok_len := 1;
                      tok_type := ILLEGAL_CHARACTER |} |}
     = None.
Proof.
  apply (error_location_reads_before_start (LF :: text "@")
           {| current_position := 2;
              token := {| tok_start := 1; tok_len := 1;
                          tok_type := ILLEGAL_CHARACTER |} |});
    try reflexivity; simpl; lia.
Defined.

(** X16: [parse] stays within the line.  Whether it returns a value or
    raises an error, the cursor is at most at the end of the line, and the
    lookahead token (the offending token of an error) starts at a character
    of the line or at its end. *)
Theorem parse_stays_in_line source pow strtod_continued :
  outcome_in_bounds source (Parser.parse source pow strtod_continued).
Proof.
  apply compute_expr_in_bounds. simpl. lia.
Qed.

(** ** Text after a complete expression *)

Lemma last_app_nonempty (a b : list ascii) :
  b <> [] -> last (a ++ b) NUL = last b NUL.
Proof.
  intros N. induction a as [|x a IH]; [reflexivity|].
  simpl. rewrite IH. destruct (a ++ b) eqn:E; [|reflexivity].
  apply app_eq_nil in E. destruct E. congruence.
Qed.

Lemma digits_last ds :
  ds <> [] -> forallb isdigit ds = true -> isdigit (last ds NUL) = true.
Proof.
  induction ds as [|d ds IH]; intros N D; [congruence|].
  simpl in D. apply andb_true_iff in D. destruct D as [D1 D2].
  destruct ds as [|d' ds]; [exact D1|].
  apply IH; [discriminate|exact D2].
Qed.

Lemma phrase_nonempty k s e : phrase k s e -> s <> [].
Proof.
  intros H. destruct (phrase_head _ _ _ H) as (c & s' & -> & _). discriminate.
Qed.

Lemma follows_text_mono k k' s rest :
  (k <= k')%Z -> follows_text k s rest -> follows_text k' s rest.
Proof.
  intros L [D H]. split; [assumption|]. intros B.
  destruct (H B) as [H1|[H1 H2]]; [left; lia|].
  destruct (Z.eq_dec k k'); [right; split; congruence|left; lia].
Qed.


Section TextAfter.

Variable pow : float -> float -> float.
Variable strtod_continued : list ascii -> float.

(** The main lemma once more, for text that may start with a digit after a
    closing parenthesis. *)
Lemma climb_text k s e :
  phrase k s e ->
  forall source p rest m st,
    skipn p source = s ++ rest -> current_position st = p ->
    (m <= k)%Z -> follows_text k s rest ->
    run_expr source pow strtod_continued m st
    = run_loop source pow strtod_continued m (eval pow e)
        (state_at source (p + length s)).
Proof.
  induction 1 as [ws ds B N D|ws s ws' e B B' Hs IH
                 |op l r el er ws O Hl IHl B Hr IHr|k s e Hs IH];
    intros source p rest m st E P M F.
  - (* a number: what follows does not start with a digit *)
    apply (climb pow strtod_continued atom_level (ws ++ ds) (Num ds)
             (phrase_number ws ds B N D) source p rest m st E P M).
    destruct F as [F1 F2]. split; [|exact F2].
    apply F1. rewrite last_app_nonempty by assumption.
    now apply digits_last.
  - (* a parenthesised expression: what follows is free *)
    assert (E0 : skipn p source
                 = ws ++ "("%char :: s ++ ws' ++ ")"%char :: rest).
    { rewrite E. repeat (rewrite <- app_assoc; simpl). reflexivity. }
    pose proof (skipn_app_inv _ _ _ _ _ E0) as E1.
    destruct (skipn_cons_inv _ _ _ _ NUL _ E1) as (_ & _ & E2).
    pose proof (skipn_app_inv _ _ _ _ _ E2) as E3.
    pose proof (skipn_app_inv _ _ _ _ _ E3) as E4.
    rewrite run_expr_eq. unfold Parser.compute_atom.
    rewrite advance_state_at, P, (state_at_blank _ _ _ _ B E0), state_at_scan.
    rewrite E1. simpl.
    rewrite (climb pow strtod_continued 1 s e Hs source (S (p + length ws))
               (ws' ++ ")"%char :: rest) 1%Z);
      [|assumption|reflexivity|lia|apply follows_rparen; assumption].
    rewrite (state_at_blank _ _ _ _ B' E3), state_at_scan, E4. simpl.
    rewrite advance_state_at. simpl.
    do 2 f_equal. rewrite !length_app. simpl. rewrite !length_app. simpl. lia.
  - (* a binary operator *)
    destruct (phrase_head _ _ _ Hr) as (c & r' & Er & Star).
    assert (Star' : Ascii.eqb (hd NUL (r ++ rest)) "*" = false)
      by (subst r; exact Star).
    assert (E0 : skipn p source
                 = l ++ ws ++ operator_text op ++ r ++ rest).
    { rewrite E. repeat rewrite <- app_assoc. reflexivity. }
    pose proof (skipn_app_inv _ _ _ _ _ E0) as E1.
    pose proof (skipn_app_inv _ _ _ _ _ E1) as E2.
    pose proof (skipn_app_inv _ _ _ _ _ E2) as E3.
    pose proof (skipn_app_inv _ _ _ _ _ E3) as E4.
    rewrite (climb pow strtod_continued _ l el Hl source p _ m st E0 P).
    2:{ pose proof (level_le_lhs op). lia. }
    2:{ now apply follows_operator. }
    rewrite (state_at_blank _ _ _ _ B E1), state_at_scan, E2.
    rewrite scan_operator by assumption. simpl.
    set (st1 := {| current_position := _; token := _ |}).
    assert (Len : p + length (l ++ ws ++ operator_text op ++ r)
                  = p + length l + length ws + length (operator_text op)
                    + length r).
    { rewrite !length_app. lia. }
    rewrite Len.
    assert (Last : last (l ++ ws ++ operator_text op ++ r) NUL = last r NUL).
    { pose proof (phrase_nonempty _ _ _ Hr) as Nr.
      now rewrite !app_assoc, last_app_nonempty. }
    apply (loop_binary pow strtod_continued source m (eval pow el)
             (eval pow er) st1).
    + exact O.
    + exact M.
    + apply (IHr source _ rest); auto using Z.le_refl.
      apply (follows_text_mono (prec (OperatorMap_at op)));
        [apply level_le_rhs|].
      destruct F as [F1 F2]. split; [|exact F2]. now rewrite <- Last.
    + rewrite state_at_type, E4. simpl. intros Bt.
      destruct F as [_ F]. destruct (F Bt) as [F1|[F1 F2]].
      * pose proof (level_le_rhs op). lia.
      * pose proof (OperatorMap_uniform _ _ Bt O F1) as U.
        unfold rhs_level. rewrite <- U, F2. lia.
  - (* a phrase of a higher level *)
    apply (IH source p rest); auto; [lia|].
    apply (follows_text_mono k); [lia|assumption].
Qed.


End TextAfter.



(** X8: a parenthesis that is not closed.  For every valid expression
    after a left parenthesis, followed by text whose first token is a number,
    a left parenthesis or the end of the input (the text not starting with a
    digit right after a digit of the expression, which would be the same
    number), [parse] raises "Unmatched '('" at that token. *)
Theorem parenthesis_not_closed pow strtod_continued ws s e rest :
  blank ws -> phrase 1 s e -> leftover_after s rest = true ->
  first_token_type rest <> RIGHT_PAREN ->
  Parser.parse (ws ++ "("%char :: s ++ rest) pow strtod_continued
  = Error UnmatchedParen
      (state_at (ws ++ "("%char :: s ++ rest) (length ws + 1 + length s)).
Proof.
  intros B H L R. rewrite parse_run_expr, run_expr_eq.
  unfold Parser.compute_atom.
  set (source := ws ++ "("%char :: s ++ rest).
  assert (E : skipn 0 source = ws ++ "("%char :: s ++ rest) by reflexivity.
  pose proof (skipn_app_inv _ _ _ _ _ E) as E1.
  destruct (skipn_cons_inv _ _ _ _ NUL _ E1) as (_ & _ & E2).
  pose proof (skipn_app_inv _ _ _ _ _ E2) as E3.
  cbn [Nat.add] in E1, E2, E3.
  rewrite advance_state_at. cbn [Parser.initial current_position].
  rewrite (state_at_blank _ _ _ _ B E). cbn [Nat.add].
  rewrite state_at_scan, E1. simpl.
  unfold leftover_after in L. apply andb_true_iff in L. destruct L as [D L].
  rewrite (climb_text pow strtod_continued 1 s e H source (S (length ws))
             rest 1%Z); [|assumption|reflexivity|lia|].
  2:{ split.
      - intros Ds. rewrite Ds in D. simpl in D. now apply negb_true_iff in D.
      - destruct (first_token_type rest); discriminate. }
  assert (T : tok_type (token (state_at source (S (length ws) + length s)))
              = first_token_type rest)
    by (rewrite state_at_type; cbn [Nat.add]; now rewrite E3).
  rewrite loop_stop;
    [|rewrite T; destruct (first_token_type rest); discriminate
     |rewrite T; destruct (first_token_type rest); discriminate].
  rewrite T.
  replace (length ws + 1 + length s) with (S (length ws) + length s) by lia.
  destruct (first_token_type rest); try discriminate; try reflexivity.
  congruence.
Qed.

Lemma parenthesis_not_closed_witness :
  Parser.parse (text " " ++ "("%char :: text "(1 + 2)" ++ text "3")
    sample_pow sample_strtod_continued
  = Error UnmatchedParen
      (state_at (text " " ++ "("%char :: text "(1 + 2)" ++ text "3")
         (length (text " ") + 1 + length (text "(1 + 2)"))).
Proof.
  apply (parenthesis_not_closed sample_pow sample_strtod_continued (text " ")
           (text "(1 + 2)") (Bin ADD (Num (text "1")) (Num (text "2"))));
    try reflexivity; try discriminate.
  apply (phrase_weaken_le 1 atom_level); [cbv; discriminate|].
  apply (phrase_paren [] (text "1 + 2") []); try reflexivity.
  apply (phrase_binary ADD (text "1") (text " 2") _ _ (text " "));
    [reflexivity| |reflexivity|].
  - apply (phrase_literal _ []); reflexivity.
  - apply (phrase_literal _ (text " ")); reflexivity.
Defined.
